(** * Huffman-DataComp: a shallow embedding of [huffman.py]

    The Python module builds a prefix-code tree from a byte-frequency
    dictionary, derives a code table, packs codes into bytes and
    (de)serialises the tree.  Every function below is a transcription of
    the function of the same name in [src/huffman.py]; exceptions are
    carried by the [result] monad. *)

From Stdlib Require Import ZArith QArith String Ascii List Lia DecimalString.
From stdpp Require Import gmap strings list sorting.

Local Open Scope Z_scope.

(** ** Python exceptions and the error monad *)

Module Py.

(** The built-in exceptions the module can raise, the error kinds of the
    specification ([UserError], named by its class name), and [OutOfFuel]
    for a loop of the model that was given too little fuel (never a Python
    outcome). *)
Inductive exn : Type :=
  | IndexError
  | KeyError
  | ValueError
  | TypeError
  | AttributeError
  | ZeroDivisionError
  | UserError (name : string)
  | OutOfFuel.

Inductive result (A : Type) : Type :=
  | Ok (a : A)
  | Raise (e : exn).
Arguments Ok {A} a.
Arguments Raise {A} e.

Definition bind {A B} (m : result A) (k : A -> result B) : result B :=
  match m with
  | Ok a => k a
  | Raise e => Raise e
  end.

(** A [for] loop whose body may raise: left fold in the error monad. *)
Fixpoint for_each {A S} (body : S -> A -> result S) (xs : list A) (s : S)
  : result S :=
  match xs with
  | [] => Ok s
  | x :: xs' => bind (body s x) (for_each body xs')
  end.

(** [lst.pop()]: removes and returns the last element. *)
Definition list_pop {A} (l : list A) : result (A * list A) :=
  match last l with
  | Some x => Ok (x, removelast l)
  | None => Raise IndexError
  end.

(** [lst[i]] with Python's negative indices. *)
Definition list_index {A} (l : list A) (i : Z) : result A :=
  let j := if i <? 0 then Z.of_nat (length l) + i else i in
  if j <? 0 then Raise IndexError
  else match l !! Z.to_nat j with
       | Some x => Ok x
       | None => Raise IndexError
       end.

(** [lst.remove(x)]: deletes the first occurrence. *)
Fixpoint list_remove (x : Z) (l : list Z) : result (list Z) :=
  match l with
  | [] => Raise ValueError
  | y :: l' =>
      if Z.eqb y x then Ok l'
      else bind (list_remove x l') (fun r => Ok (y :: r))
  end.

(** A [dict] whose iteration order matters: insertion-ordered association
    list (keys pairwise distinct in a well-formed dictionary). *)
Definition dict (V : Type) : Type := list (Z * V).

Fixpoint dict_get {V} (d : dict V) (k : Z) : result V :=
  match d with
  | [] => Raise KeyError
  | (k', v) :: d' => if Z.eqb k' k then Ok v else dict_get d' k
  end.

Definition dict_contains {V} (d : dict V) (k : Z) : bool :=
  match dict_get d k with Ok _ => true | Raise _ => false end.

Fixpoint dict_set {V} (d : dict V) (k : Z) (v : V) : dict V :=
  match d with
  | [] => [(k, v)]
  | (k', v') :: d' =>
      if Z.eqb k' k then (k', v) :: d' else (k', v') :: dict_set d' k v
  end.

Fixpoint dict_del {V} (d : dict V) (k : Z) : result (dict V) :=
  match d with
  | [] => Raise KeyError
  | (k', v') :: d' =>
      if Z.eqb k' k then Ok d'
      else bind (dict_del d' k) (fun r => Ok ((k', v') :: r))
  end.

Definition dict_keys {V} (d : dict V) : list Z := map fst d.

(** [int(c)] for a one-character string. *)
Definition int_of_char (c : ascii) : result Z :=
  let n := Z.of_nat (nat_of_ascii c) in
  if (48 <=? n) && (n <=? 57) then Ok (n - 48) else Raise ValueError.

(** [a << n] and [a >> n] raise on a negative count. *)
Definition shl (a n : Z) : result Z :=
  if n <? 0 then Raise ValueError else Ok (Z.shiftl a n).
Definition shr (a n : Z) : result Z :=
  if n <? 0 then Raise ValueError else Ok (Z.shiftr a n).

(** [str(n)] for an integer. *)
Definition str (n : Z) : string := NilZero.string_of_int (Z.to_int n).

(** Slices [s[:n]] and [s[n:]] for [n >= 0]. *)
Fixpoint str_take (n : nat) (s : string) : string :=
  match n, s with
  | S n', String c s' => String c (str_take n' s')
  | _, _ => EmptyString
  end.
Fixpoint str_drop (n : nat) (s : string) : string :=
  match n, s with
  | S n', String c s' => str_drop n' s'
  | _, _ => s
  end.

(** [bytes(lst)]: every element must be an integer in [range(256)];
    [None] elements are a [TypeError]. *)
Fixpoint bytes_of (l : list (option Z)) : result (list Z) :=
  match l with
  | [] => Ok []
  | None :: _ => Raise TypeError
  | Some b :: l' =>
      if (0 <=? b) && (b <? 256)
      then bind (bytes_of l') (fun r => Ok (b :: r))
      else Raise ValueError
  end.

End Py.
Export Py.

(** The monad operations are those of stdpp's [MBind]/[MRet] classes, so
    that [x ← m; k] sequences two fallible computations. *)
#[global] Instance result_bind : MBind result := fun A B k m => bind m k.
#[global] Instance result_ret : MRet result := fun A a => Ok a.

(** ** The node classes *)

#[local] Unset Elimination Schemes.

(** Modelled from the spec: the class [HuffmanNode] is imported from a
    module [nodes] that is not among the sources.  Section 3 of the
    specification gives a node a symbol (leaves), two children (internal
    nodes) and a postorder number; [huffman.py] builds nodes with
    [HuffmanNode(symbol, left, right)], every argument defaulting to [None],
    and reads and assigns the attributes [symbol], [left], [right] and
    [number], each of which may hold [None]. *)
Inductive HuffmanNode : Type :=
  | MkNode (symbol : option Z) (left right : option HuffmanNode)
           (number : option Z).

#[local] Set Elimination Schemes.

Definition symbol (n : HuffmanNode) : option Z :=
  match n with MkNode s _ _ _ => s end.
Definition left (n : HuffmanNode) : option HuffmanNode :=
  match n with MkNode _ l _ _ => l end.
Definition right (n : HuffmanNode) : option HuffmanNode :=
  match n with MkNode _ _ r _ => r end.
Definition number (n : HuffmanNode) : option Z :=
  match n with MkNode _ _ _ k => k end.

(** [HuffmanNode(symbol, left, right)]: a fresh node is not numbered. *)
Definition new_node (s : option Z) (l r : option HuffmanNode) : HuffmanNode :=
  MkNode s l r None.

Definition set_left (n : HuffmanNode) (l : option HuffmanNode) : HuffmanNode :=
  MkNode (symbol n) l (right n) (number n).
Definition set_right (n : HuffmanNode) (r : option HuffmanNode) : HuffmanNode :=
  MkNode (symbol n) (left n) r (number n).
Definition set_number (n : HuffmanNode) (k : option Z) : HuffmanNode :=
  MkNode (symbol n) (left n) (right n) k.

(** Modelled from the spec: the method [is_leaf] of the missing class; a
    leaf is a node with no children (section 3). *)
Definition is_leaf (n : HuffmanNode) : bool :=
  match left n, right n with
  | None, None => true
  | _, _ => false
  end.

(** Modelled from the spec: the class [ReadNode] of the missing module,
    the four-field record of section 3, built as
    [ReadNode(l_type, l_data, r_type, r_data)]. *)
Record ReadNode : Type := MkReadNode
  { l_type : Z; l_data : Z; r_type : Z; r_data : Z }.

(** The two variants of section 3, as the code builds them. *)
Definition Leaf (s : Z) : HuffmanNode := new_node (Some s) None None.
Definition Internal (l r : HuffmanNode) : HuffmanNode :=
  new_node None (Some l) (Some r).

(** ** Helper functions for manipulating bytes *)

Definition get_bit (byte bit_num : Z) : result Z :=
  m ← shl 1 bit_num; shr (Z.land byte m) bit_num.

Definition byte_to_bits (byte : Z) : result string :=
  for_each (fun acc bit_num => b ← get_bit byte bit_num; Ok (acc +:+ str b))
           [7; 6; 5; 4; 3; 2; 1; 0] EmptyString.

(** [sum([int(bits[pos]) << (7 - pos) for pos in range(len(bits))])]; [pos]
    is the position of the head of [bits] in the whole string. *)
Fixpoint bits_to_byte_from (pos : Z) (bits : string) : result Z :=
  match bits with
  | EmptyString => Ok 0
  | String c rest =>
      d ← int_of_char c;
      v ← shl d (7 - pos);
      s ← bits_to_byte_from (pos + 1) rest;
      Ok (v + s)
  end.

Definition bits_to_byte (bits : string) : result Z := bits_to_byte_from 0 bits.

(** ** Functions for compression *)

Definition make_freq_dict (text : list Z) : result (dict Z) :=
  for_each
    (fun dic char =>
       if negb (dict_contains dic char) then Ok (dict_set dic char 1)
       else c ← dict_get dic char; Ok (dict_set dic char (c + 1)))
    text [].

Section HuffmanTree.
Variable freq_dict : dict Z.

Definition find_biggest_key (keylist : list Z) : result (option Z) :=
  match keylist with
  | [] => Ok None
  | k0 :: _ =>
      current_key ←
        for_each (fun current_key key =>
                    fk ← dict_get freq_dict key;
                    fc ← dict_get freq_dict current_key;
                    Ok (if fk >? fc then key else current_key))
                 keylist k0;
      Ok (Some current_key)
  end.

(** The first [while] loop; one key leaves [key_list] per iteration, so
    [length key_list] iterations are enough. *)
Fixpoint order_loop (fuel : nat) (temp : list Z) (frequency : dict Z)
    (key_list : list Z) (biggest_key : option Z) : result (list Z) :=
  match key_list with
  | [] => Ok temp
  | _ :: _ =>
      match fuel with
      | O => Raise OutOfFuel
      | S fuel' =>
          match biggest_key with
          | None => Raise KeyError
          | Some k =>
              frequency' ← dict_del frequency k;
              key_list' ← list_remove k key_list;
              biggest_key' ← find_biggest_key key_list';
              order_loop fuel' (temp ++ [k]) frequency' key_list'
                         biggest_key'
          end
      end
  end.

(** The second loop pops [temp] from its end into [nodes_list]. *)
Fixpoint leaves_loop (fuel : nat) (temp : list Z)
    (nodes_list : list HuffmanNode) : result (list HuffmanNode) :=
  match temp with
  | [] => Ok nodes_list
  | _ :: _ =>
      match fuel with
      | O => Raise OutOfFuel
      | S fuel' =>
          '(k, temp') ← list_pop temp;
          leaves_loop fuel' temp' (nodes_list ++ [new_node (Some k) None None])
      end
  end.

(** The [while True] loop: every iteration that does not return shortens
    [nodes_list] by one. *)
Fixpoint merge_loop (fuel : nat) (nodes_list : list HuffmanNode)
  : result HuffmanNode :=
  match fuel with
  | O => Raise OutOfFuel
  | S fuel' =>
      '(first_node, nodes_list1) ← list_pop nodes_list;
      match nodes_list1 with
      | [] => Ok first_node
      | _ :: _ =>
          '(second_node, nodes_list2) ← list_pop nodes_list1;
          let parent_node :=
            new_node None (Some first_node) (Some second_node) in
          merge_loop fuel' (parent_node :: nodes_list2)
      end
  end.

Definition huffman_tree : result HuffmanNode :=
  let frequency := freq_dict in
  let key_list := dict_keys frequency in
  biggest_key ← find_biggest_key key_list;
  temp ← order_loop (length key_list) [] frequency key_list biggest_key;
  nodes_list ← leaves_loop (length temp) temp [];
  merge_loop (S (length nodes_list)) (rev nodes_list).

End HuffmanTree.

(** The code table is a [dict] that is only ever looked up; its keys are
    the [symbol] attributes of nodes, which are integers or [None]. *)
Fixpoint get_codes (tree : HuffmanNode)
  : result (gmap (option Z) string) :=
  match tree with
  | MkNode _ l r _ =>
      let d : gmap (option Z) string := ∅ in
      if is_leaf tree then Ok d
      else
        d ← match l with
            | None => Raise AttributeError
            | Some ln =>
                if is_leaf ln then Ok (<[symbol ln := "0"%string]> d)
                else temp1 ← get_codes ln;
                     Ok ((String "0" <$> temp1) ∪ d)
            end;
        match r with
        | None => Raise AttributeError
        | Some rn =>
            if is_leaf rn then Ok (<[symbol rn := "1"%string]> d)
            else temp2 ← get_codes rn;
                 Ok ((String "1" <$> temp2) ∪ d)
        end
  end.

(** [number_nodes] mutates the tree it is given.  The nested helper assigns
    to the node it visits and, through the captured variable [tree], to the
    root; the model threads the whole tree as the store and addresses the
    visited node by its path from the root ([false] = left). *)
Fixpoint assign_number (tree : HuffmanNode) (path : list bool) (x : Z)
  : HuffmanNode :=
  match path, tree with
  | [], _ => set_number tree (Some x)
  | false :: p, MkNode s l r k =>
      MkNode s (option_map (fun c => assign_number c p x) l) r k
  | true :: p, MkNode s l r k =>
      MkNode s l (option_map (fun c => assign_number c p x) r) k
  end.

Fixpoint traverse_node (node : HuffmanNode) (path : list bool) (x max : Z)
    (tree : HuffmanNode) : HuffmanNode :=
  match node with
  | MkNode _ l r _ =>
      let tree := assign_number tree path x in
      let tree :=
        match l with
        | Some ln => traverse_node ln (path ++ [false]) x max tree
        | None => tree
        end in
      let tree :=
        match r with
        | Some rn => traverse_node rn (path ++ [true]) (x + 1) max tree
        | None => tree
        end in
      let max := max + 1 in
      set_number tree (Some (max + 1))
  end.

Definition number_nodes (tree : HuffmanNode) : HuffmanNode :=
  traverse_node tree [] 0 0 tree.

(** [l / divisor] is Python's true division; the model keeps the exact
    quotient, in lowest terms. *)
Definition avg_length (tree : HuffmanNode) (freq_dict : dict Z) : result Q :=
  '(l, divisor) ←
    for_each (fun '(l, divisor) key =>
                codes ← get_codes tree;
                code ← match codes !! Some key with
                       | Some c => Ok c
                       | None => Raise KeyError
                       end;
                f ← dict_get freq_dict key;
                Ok (l + Z.of_nat (String.length code) * f, divisor + f))
             (dict_keys freq_dict) (0, 0);
  if divisor =? 0 then Raise ZeroDivisionError
  else Ok (Qred (Qdiv (inject_Z l) (inject_Z divisor))).

Definition generate_compressed (text : list Z)
    (codes : gmap (option Z) string) : result (list Z) :=
  byte ← for_each (fun byte i =>
                     match codes !! Some i with
                     | Some c => Ok (byte +:+ c)
                     | None => Raise KeyError
                     end)
                  text EmptyString;
  if Z.of_nat (String.length byte) <? 8 then
    b ← bits_to_byte byte; Ok [b]
  else
    let length := Z.of_nat (String.length byte) mod 8 + 2 in
    '(lst, _) ←
      for_each (fun '(lst, byte) i =>
                  b ← bits_to_byte (str_take (8 * i) byte);
                  Ok (lst ++ [b], str_drop (8 * i) byte))
               (seq 1 (Z.to_nat length - 1)) ([], byte);
    Ok lst.

(** [traverse_tree] appends to the list [lst] of the enclosing call; a call
    on [None] returns at once. *)
Fixpoint traverse_tree (node : HuffmanNode) (lst : list (option Z))
  : list (option Z) :=
  match node with
  | MkNode _ l r num =>
      let lst :=
        match l with
        | Some ln =>
            if is_leaf ln then lst ++ [Some 0; symbol ln]
            else traverse_tree ln lst
        | None => lst
        end in
      let lst :=
        match r with
        | Some rn =>
            if is_leaf rn then lst ++ [Some 0; symbol rn]
            else traverse_tree rn lst
        | None => lst
        end in
      if negb (is_leaf node) then lst ++ [Some 1; num] else lst
  end.

Definition tree_to_bytes (tree : HuffmanNode) : result (list Z) :=
  let lst := traverse_tree tree [] in
  bytes_of (take (length lst - 2) lst).

Definition num_nodes_to_bytes (tree : HuffmanNode) : result (list Z) :=
  match number tree with
  | None => Raise TypeError
  | Some n => bytes_of [Some (n + 1)]
  end.

(** [size.to_bytes(4, "little")]: the four bytes of [size], least
    significant first; a negative size or one of 2^32 or more is an
    [OverflowError], carried by its name. *)
Definition size_to_bytes (size : Z) : result (list Z) :=
  if (0 <=? size) && (size <? 2 ^ 32)
  then Ok [size mod 256; (size / 256) mod 256;
           (size / 65536) mod 256; (size / 16777216) mod 256]
  else Raise (UserError "OverflowError").

(** ** Functions for decompression *)

(** The branch [len(node_lst) == 1] of both tree builders.  Every recursive
    call in them passes a one-element list, so it is answered by this
    branch. *)
Definition generate_tree_single (rn : ReadNode) : HuffmanNode :=
  let tree := new_node None None None in
  let tree := set_left tree (Some (new_node (Some (l_data rn)) None None)) in
  set_right tree (Some (new_node (Some (r_data rn)) None None)).

Definition generate_tree_general (node_lst : list ReadNode) (root_index : Z)
  : result HuffmanNode :=
  let tree := new_node None None None in
  if (length node_lst =? 1)%nat then
    rn0 ← list_index node_lst 0; Ok (generate_tree_single rn0)
  else
    rn ← list_index node_lst root_index;
    tree ←
      (if l_type rn =? 1 then
         if l_data rn =? 1 then
           n0 ← list_index node_lst 0;
           Ok (set_right tree (Some (generate_tree_single n0)))
         else
           n1 ← list_index node_lst 1;
           Ok (set_left tree (Some (generate_tree_single n1)))
       else Ok (set_left tree (Some (new_node (Some (l_data rn)) None None))));
    if r_type rn =? 1 then
      if r_data rn =? 1 then
        n0 ← list_index node_lst 0;
        Ok (set_right tree (Some (generate_tree_single n0)))
      else
        n1 ← list_index node_lst 1;
        Ok (set_left tree (Some (generate_tree_single n1)))
    else Ok (set_right tree (Some (new_node (Some (r_data rn)) None None))).

Definition generate_tree_postorder (node_lst : list ReadNode) (root_index : Z)
  : result HuffmanNode :=
  let tree := new_node None None None in
  if (length node_lst =? 1)%nat then
    rn0 ← list_index node_lst 0; Ok (generate_tree_single rn0)
  else
    rn ← list_index node_lst root_index;
    tree ←
      (if l_type rn =? 1 then
         if l_data rn =? 0 then
           n1 ← list_index node_lst 1;
           Ok (set_right tree (Some (generate_tree_single n1)))
         else
           n0 ← list_index node_lst 0;
           Ok (set_left tree (Some (generate_tree_single n0)))
       else Ok (set_left tree (Some (new_node (Some (l_data rn)) None None))));
    if r_type rn =? 1 then
      if r_data rn =? 1 then
        n1 ← list_index node_lst 1;
        Ok (set_right tree (Some (generate_tree_single n1)))
      else
        n0 ← list_index node_lst 0;
        Ok (set_left tree (Some (generate_tree_single n0)))
    else Ok (set_right tree (Some (new_node (Some (r_data rn)) None None))).

(** The body of [generate_uncompressed] is a docstring and a [todo]
    comment: the call returns [None] whatever its arguments. *)
Definition generate_uncompressed (tree : HuffmanNode) (text : list Z)
    (size : Z) : option (list Z) := None.

Fixpoint bytes_to_nodes (buf : list Z) : result (list ReadNode) :=
  match buf with
  | [] => Ok []
  | l_type :: l_data :: r_type :: r_data :: rest =>
      lst ← bytes_to_nodes rest;
      Ok (MkReadNode l_type l_data r_type r_data :: lst)
  | _ => Raise IndexError
  end.

(** [int.from_bytes(buf, "little")]. *)
Fixpoint bytes_to_size (buf : list Z) : Z :=
  match buf with
  | [] => 0
  | b :: rest => b + 256 * bytes_to_size rest
  end.

(** ** Other functions *)

(** The body of [improve_tree] is a docstring and a [todo] comment: the
    tree it is given is the tree after the call. *)
Definition improve_tree (tree : HuffmanNode) (freq_dict : dict Z)
  : HuffmanNode := tree.

(** * Notions of the specification *)

(** Count of a symbol in a frequency table; an absent symbol counts 0. *)
Definition freq_of (freq_dict : dict Z) (k : Z) : Z :=
  match dict_get freq_dict k with
  | Ok v => v
  | Raise _ => 0
  end.

(** The scan of [find_biggest_key] as a pure function of the counts. *)
Fixpoint scan_max (f : Z -> Z) (cur : Z) (l : list Z) : Z :=
  match l with
  | [] => cur
  | key :: l' => scan_max f (if f key >? f cur then key else cur) l'
  end.

(** The documented order: [a] comes before [b] when it is more frequent,
    or as frequent and met earlier in the table's symbols. *)
Definition comes_before (freq_dict : dict Z) (a b : Z) : Prop :=
  freq_of freq_dict b < freq_of freq_dict a \/
  (freq_of freq_dict a = freq_of freq_dict b /\
   [a; b] `sublist_of` dict_keys freq_dict).

Definition documented_order (freq_dict : dict Z) (ks : list Z) : Prop :=
  ks ≡ₚ dict_keys freq_dict /\ StronglySorted (comes_before freq_dict) ks.

(** One round of the merge policy: the two tail nodes leave the queue, the
    first removed (the last) becomes the left child, the second removed the
    right child, and the merged node enters at the head. *)
Inductive merge_step : list HuffmanNode -> list HuffmanNode -> Prop :=
  | merge_tail (queue : list HuffmanNode)
               (second_removed first_removed : HuffmanNode) :
      merge_step (queue ++ [second_removed; first_removed])
                 (Internal first_removed second_removed :: queue).

(** The policy is run until a single node remains, the root. *)
Definition merge_policy (queue : list HuffmanNode) (root : HuffmanNode)
  : Prop := rtc merge_step queue [root].

(** The tree of the documented policy for a table. *)
Definition policy_tree (freq_dict : dict Z) (root : HuffmanNode) : Prop :=
  exists ks, documented_order freq_dict ks /\ merge_policy (Leaf <$> ks) root.

(** Trees as section 3 describes them: a leaf holds a symbol and has no
    children, an internal node has both children. *)
Inductive well_formed : HuffmanNode -> Prop :=
  | wf_leaf s k : well_formed (MkNode (Some s) None None k)
  | wf_internal sym l r k :
      well_formed l -> well_formed r ->
      well_formed (MkNode sym (Some l) (Some r) k).

(** [path_to t p s]: the leaf carrying [s] is reached from the root of [t]
    along [p], a left edge written "0" and a right edge "1". *)
Inductive path_to : HuffmanNode -> string -> Z -> Prop :=
  | path_leaf s k : path_to (MkNode (Some s) None None k) EmptyString s
  | path_left sym l r k p s :
      path_to l p s -> path_to (MkNode sym (Some l) r k) (String "0" p) s
  | path_right sym l r k p s :
      path_to r p s -> path_to (MkNode sym l (Some r) k) (String "1" p) s.

(** The symbols at the leaves, left to right. *)
Fixpoint leaf_symbols (t : HuffmanNode) : list Z :=
  match t with
  | MkNode s l r _ =>
      match l, r with
      | None, None => match s with Some x => [x] | None => [] end
      | _, _ =>
          match l with Some ln => leaf_symbols ln | None => [] end ++
          match r with Some rn => leaf_symbols rn | None => [] end
      end
  end.

(** What one child contributes to the table of its parent in
    [get_codes]. *)
Definition child_codes (bit : ascii) (c : HuffmanNode)
  : result (gmap (option Z) string) :=
  if is_leaf c
  then Ok ({[symbol c := String bit EmptyString]} : gmap (option Z) string)
  else temp ← get_codes c;
       Ok (String bit <$> (temp : gmap (option Z) string)).

(** The table [m] holds exactly the root-to-leaf paths of [t], each
    prefixed by [pre]. *)
Definition holds_paths (m : gmap (option Z) string) (pre : string -> string)
    (t : HuffmanNode) : Prop :=
  forall key code, m !! key = Some code <->
    exists s p, key = Some s /\ code = pre p /\ path_to t p s.

(** No code of the table is a prefix of the code of another symbol, and
    codes of different symbols differ. *)
Definition prefix_free (codes : gmap (option Z) string) : Prop :=
  forall s1 s2 c1 c2, s1 <> s2 ->
    codes !! s1 = Some c1 -> codes !! s2 = Some c2 ->
    c1 <> c2 /\ String.prefix c1 c2 = false.

(** The whole codec on a byte sequence: encode with the tree built from
    its frequencies, then decode. *)
Definition codec_round_trip (S : list Z) : result (option (list Z)) :=
  freq ← make_freq_dict S;
  tree ← huffman_tree freq;
  codes ← get_codes tree;
  packed ← generate_compressed S codes;
  Ok (generate_uncompressed tree packed (Z.of_nat (length S))).

(** The bit string of section 4.5 cut into groups of eight, the last one
    possibly shorter. *)
Fixpoint groups_of_8 (fuel : nat) (bits : string) : list string :=
  match fuel with
  | O => []
  | S fuel' =>
      if (String.length bits <=? 8)%nat then [bits]
      else str_take 8 bits :: groups_of_8 fuel' (str_drop 8 bits)
  end.

(** The packing of section 4.5: the codes in input order, one byte per
    group of eight bits, the last group padded on the right with zeros. *)
Definition packed_reference (text : list Z)
    (codes : gmap (option Z) string) : result (list Z) :=
  bits ← for_each (fun bits i =>
                     match codes !! Some i with
                     | Some c => Ok (bits +:+ c)
                     | None => Raise KeyError
                     end) text EmptyString;
  for_each (fun out group => b ← bits_to_byte group; Ok (out ++ [b]))
           (groups_of_8 (String.length bits) bits) [].

Definition codes_012 : gmap (option Z) string :=
  <[Some 0 := "0"%string]>
    (<[Some 1 := "10"%string]> (<[Some 2 := "11"%string]> ∅)).
Definition codes_01 : gmap (option Z) string :=
  <[Some 0 := "0"%string]> (<[Some 1 := "1"%string]> ∅).

(** An internal node carrying a number. *)
Definition Numbered (n : Z) (l r : HuffmanNode) : HuffmanNode :=
  set_number (Internal l r) (Some n).

(** The numbers of the internal nodes, listed in postorder, and the
    numbers of the leaves, left to right. *)
Fixpoint internal_numbers (t : HuffmanNode) : list (option Z) :=
  match t with
  | MkNode _ l r k =>
      match l, r with
      | None, None => []
      | _, _ =>
          match l with Some ln => internal_numbers ln | None => [] end ++
          match r with Some rn => internal_numbers rn | None => [] end ++
          [k]
      end
  end.

Fixpoint leaf_numbers (t : HuffmanNode) : list (option Z) :=
  match t with
  | MkNode _ l r k =>
      match l, r with
      | None, None => [k]
      | _, _ =>
          match l with Some ln => leaf_numbers ln | None => [] end ++
          match r with Some rn => leaf_numbers rn | None => [] end
      end
  end.

(** The numbering the documentation asks for: internal nodes carry
    0, 1, 2, ... in postorder and leaves carry no number. *)
Definition postorder_numbered (t : HuffmanNode) : Prop :=
  internal_numbers t =
    (fun i => Some (Z.of_nat i)) <$> seq 0 (length (internal_numbers t)) /\
  Forall (fun k => k = None) (leaf_numbers t).

(** The record of one internal node: for each child, flag 0 and the symbol
    of a leaf, flag 1 and the number of an internal node. *)
Definition child_record (c : HuffmanNode) : list (option Z) :=
  if is_leaf c then [Some 0; symbol c] else [Some 1; number c].

Fixpoint postorder_records (t : HuffmanNode) : list (option Z) :=
  match t with
  | MkNode _ (Some l) (Some r) _ =>
      postorder_records l ++ postorder_records r ++
      child_record l ++ child_record r
  | _ => []
  end.

(** The serialised tree of section 4.4: the count of internal nodes, then
    their records in postorder. *)
Definition serialized_reference (t : HuffmanNode) : result (list Z) :=
  bytes_of (Some (Z.of_nat (length (internal_numbers t)))
            :: postorder_records t).

(** [num_nodes_to_bytes(tree) + tree_to_bytes(tree)]. *)
Definition serialized (t : HuffmanNode) : result (list Z) :=
  count ← num_nodes_to_bytes t;
  records ← tree_to_bytes t;
  Ok (count ++ records).

Definition right_heavy : HuffmanNode :=
  Numbered 1 (Leaf 5) (Numbered 0 (Leaf 3) (Leaf 2)).
Definition left_heavy : HuffmanNode :=
  Numbered 1 (Numbered 0 (Leaf 3) (Leaf 2)) (Leaf 5).

(** Serialise, parse the records back, rebuild with [build] from the last
    record, read the codes. *)
Definition codes_after_round_trip
    (build : list ReadNode -> Z -> result HuffmanNode) (t : HuffmanNode)
  : result (gmap (option Z) string) :=
  buf ← tree_to_bytes t;
  node_lst ← bytes_to_nodes buf;
  let n := Z.of_nat (length (internal_numbers t)) in
  tree ← build node_lst (n - 1);
  get_codes tree.

(** Two trees branch alike. *)
Fixpoint same_shape (t1 t2 : HuffmanNode) : bool :=
  match t1, t2 with
  | MkNode _ l1 r1 _, MkNode _ l2 r2 _ =>
      match l1, l2 with
      | Some a, Some b => same_shape a b
      | None, None => true
      | _, _ => false
      end &&
      match r1, r2 with
      | Some a, Some b => same_shape a b
      | None, None => true
      | _, _ => false
      end
  end.

(** The tree and table of the doctest of [improve_tree], and the same
    shape with the symbols placed by descending frequency. *)
Definition improve_tree_doctest_tree : HuffmanNode :=
  Internal (Internal (Leaf 99) (Leaf 100))
           (Internal (Leaf 101) (Internal (Leaf 97) (Leaf 98))).
Definition improve_tree_doctest_freq : dict Z :=
  [(97, 26); (98, 23); (99, 20); (100, 16); (101, 15)].
Definition improve_tree_better_tree : HuffmanNode :=
  Internal (Internal (Leaf 97) (Leaf 98))
           (Internal (Leaf 99) (Internal (Leaf 100) (Leaf 101))).

(** ** Notions for the further properties *)

(** Every character of the string is "0" or "1". *)
Fixpoint is_bits (s : string) : bool :=
  match s with
  | EmptyString => true
  | String c rest =>
      (Ascii.eqb c "0" || Ascii.eqb c "1") && is_bits rest
  end.

(** The number of edges on the longest path from the root to a leaf. *)
Fixpoint height (t : HuffmanNode) : nat :=
  match t with
  | MkNode _ l r _ =>
      match l, r with
      | None, None => O
      | _, _ =>
          S (Nat.max (match l with Some ln => height ln | None => O end)
                     (match r with Some rn => height rn | None => O end))
      end
  end.

(** The number of nodes of a tree. *)
Fixpoint node_count (t : HuffmanNode) : nat :=
  match t with
  | MkNode _ l r _ =>
      S (match l with Some ln => node_count ln | None => O end +
         match r with Some rn => node_count rn | None => O end)
  end.

(** Every node has both children or none. *)
Fixpoint full_binary (t : HuffmanNode) : bool :=
  match t with
  | MkNode _ l r _ =>
      match l, r with
      | None, None => true
      | Some ln, Some rn => full_binary ln && full_binary rn
      | _, _ => false
      end
  end.

(** Every internal node has a leaf as its right child. *)
Fixpoint left_comb (t : HuffmanNode) : bool :=
  match t with
  | MkNode _ l r _ =>
      match l, r with
      | None, None => true
      | Some ln, Some rn => is_leaf rn && left_comb ln
      | _, _ => false
      end
  end.

(** The queue of the merge loop on [n] leaves: nodes of height [h + 1]
    in front of nodes of height [h]; counting a front node twice, the
    nodes weigh [n] leaves rounded up by less than one node of height
    [h]. *)
Definition level_queue (n : nat) (q : list HuffmanNode) : Prop :=
  exists h A B,
    q = A ++ B /\
    Forall (fun t => height t = S h) A /\
    Forall (fun t => height t = h) B /\
    (n <= (2 * length A + length B) * 2 ^ h)%nat /\
    ((2 * length A + length B) * 2 ^ h < n + 2 ^ h)%nat /\
    (A = [] -> length B = n).

(** Every entry of [m] is the path of a leaf that carries its key, and
    every leaf symbol has an entry. *)
Definition covers_leaves (m : gmap (option Z) string)
    (pre : string -> string) (t : HuffmanNode) : Prop :=
  (forall key code, m !! key = Some code ->
     exists s p, key = Some s /\ code = pre p /\ path_to t p s) /\
  (forall s, s ∈ leaf_symbols t -> is_Some (m !! Some s)).

(** The numbers [traverse_node] writes below a node it enters with [x]:
    the node gets [x], its left subtree is entered with [x], its right
    subtree with [x + 1]. *)
Fixpoint label_from (x : Z) (t : HuffmanNode) : HuffmanNode :=
  match t with
  | MkNode s l r _ =>
      MkNode s
        (match l with Some ln => Some (label_from x ln) | None => None end)
        (match r with
         | Some rn => Some (label_from (x + 1) rn)
         | None => None
         end)
        (Some x)
  end.

(** The subtree at a path ([false] = left), and the tree with that
    subtree replaced. *)
Fixpoint subtree_at (t : HuffmanNode) (path : list bool) {struct path}
  : option HuffmanNode :=
  match path, t with
  | [], _ => Some t
  | false :: p, MkNode _ l _ _ =>
      match l with Some c => subtree_at c p | None => None end
  | true :: p, MkNode _ _ r _ =>
      match r with Some c => subtree_at c p | None => None end
  end.

Fixpoint replace_at (t : HuffmanNode) (path : list bool) (new : HuffmanNode)
    {struct path} : HuffmanNode :=
  match path, t with
  | [], _ => new
  | false :: p, MkNode s l r k =>
      MkNode s (option_map (fun c => replace_at c p new) l) r k
  | true :: p, MkNode s l r k =>
      MkNode s l (option_map (fun c => replace_at c p new) r) k
  end.

(** The same tree without its numbers. *)
Fixpoint erase_numbers (t : HuffmanNode) : HuffmanNode :=
  match t with
  | MkNode s l r _ =>
      MkNode s
        (match l with Some ln => Some (erase_numbers ln) | None => None end)
        (match r with Some rn => Some (erase_numbers rn) | None => None end)
        None
  end.

(** The first loop of [generate_compressed]: the codes of the bytes of
    [text], in order, in one string. *)
Definition code_bits (text : list Z) (codes : gmap (option Z) string)
  : result string :=
  for_each (fun byte i =>
              match codes !! Some i with
              | Some c => Ok (byte +:+ c)
              | None => Raise KeyError
              end)
           text EmptyString.

(** The body of the second loop of [generate_compressed]. *)
Definition pack_step
  : list Z * string -> nat -> result (list Z * string) :=
  fun '(lst, byte) i =>
    b ← bits_to_byte (str_take (8 * i) byte);
    Ok (lst ++ [b], str_drop (8 * i) byte).

(** The bytes of a list of records, four per record. *)
Definition nodes_to_bytes (node_lst : list ReadNode) : list Z :=
  concat ((fun rn => [l_type rn; l_data rn; r_type rn; r_data rn])
          <$> node_lst).

(** * The doctests of the module *)

Example huffman_tree_doctest :
  huffman_tree [(2, 6); (3, 4)] = Ok (Internal (Leaf 3) (Leaf 2)).
Proof. reflexivity. Qed.

Example make_freq_dict_doctest :
  make_freq_dict [65; 66; 67; 66] = Ok [(65, 1); (66, 2); (67, 1)].
Proof. reflexivity. Qed.

Example byte_to_bits_doctest : byte_to_bits 14 = Ok "00001110"%string.
Proof. reflexivity. Qed.

Example bits_to_byte_doctest :
  bits_to_byte "00000101" = Ok 5 /\ bits_to_byte "101" = Ok 160.
Proof. split; reflexivity. Qed.

Example get_codes_doctest :
  get_codes (Internal (Leaf 3) (Leaf 2)) =
  Ok (<[Some 3 := "0"%string]> (<[Some 2 := "1"%string]> ∅)).
Proof. vm_compute. reflexivity. Qed.

Example number_nodes_doctest :
  let tree := number_nodes (Internal (Internal (Leaf 3) (Leaf 2))
                                     (Internal (Leaf 9) (Leaf 10))) in
  (number <$> left tree) = Some (Some 0) /\
  (number <$> right tree) = Some (Some 1) /\
  number tree = Some 2.
Proof. repeat split. Qed.

Example avg_length_doctest :
  avg_length (Internal (Internal (Leaf 3) (Leaf 2)) (Leaf 9))
             [(3, 2); (2, 7); (9, 1)] = Ok (19 # 10)%Q.
Proof. vm_compute. reflexivity. Qed.

Example generate_compressed_doctest :
  generate_compressed [1; 2; 1; 0; 2] codes_012 = Ok [185; 128].
Proof. vm_compute. reflexivity. Qed.

Example tree_to_bytes_doctest :
  tree_to_bytes (number_nodes (Internal (Leaf 3) (Leaf 2))) = Ok [0; 3; 0; 2] /\
  tree_to_bytes (number_nodes (Internal (Internal (Leaf 3) (Leaf 2)) (Leaf 5)))
  = Ok [0; 3; 0; 2; 1; 0; 0; 5].
Proof. split; reflexivity. Qed.

Example generate_tree_general_doctest :
  generate_tree_general
    [MkReadNode 0 5 0 7; MkReadNode 0 10 0 12; MkReadNode 1 1 1 0] 2
  = Ok (Internal (Internal (Leaf 10) (Leaf 12)) (Internal (Leaf 5) (Leaf 7))).
Proof. reflexivity. Qed.

Example generate_tree_postorder_doctest :
  generate_tree_postorder
    [MkReadNode 0 5 0 7; MkReadNode 0 10 0 12; MkReadNode 1 0 1 0] 2
  = Ok (Internal (Internal (Leaf 5) (Leaf 7)) (Internal (Leaf 10) (Leaf 12))).
Proof. reflexivity. Qed.

Example bytes_to_nodes_doctest :
  bytes_to_nodes [0; 1; 0; 2] = Ok [MkReadNode 0 1 0 2].
Proof. reflexivity. Qed.

Example size_to_bytes_doctest : size_to_bytes 300 = Ok [44; 1; 0; 0].
Proof. reflexivity. Qed.

Example bytes_to_size_doctest : bytes_to_size [44; 1; 0; 0] = 300.
Proof. reflexivity. Qed.

(** * The error monad and list helpers *)

Lemma bind_Ok {A B} (m : result A) (k : A -> result B) a :
  m = Ok a -> (m ≫= k) = k a.
Proof. intros ->. reflexivity. Qed.

Ltac run H := rewrite (bind_Ok _ _ _ H).

Lemma snoc_case {A} (l : list A) : l = [] \/ exists l' x, l = l' ++ [x].
Proof.
  induction l as [|x l _] using rev_ind; [left; reflexivity|right; eauto].
Qed.

Lemma last_snoc_Some {A} (l : list A) x : last (l ++ [x]) = Some x.
Proof. induction l as [|y [|z l] IH]; simpl in *; auto. Qed.

Lemma list_pop_snoc {A} (l : list A) x : list_pop (l ++ [x]) = Ok (x, l).
Proof.
  unfold list_pop. rewrite last_snoc_Some, removelast_last. reflexivity.
Qed.

Lemma list_remove_split k l1 l2 :
  k ∉ l1 -> list_remove k (l1 ++ k :: l2) = Ok (l1 ++ l2).
Proof.
  induction l1 as [|y l1 IH]; intros Hnot; simpl.
  - rewrite Z.eqb_refl. reflexivity.
  - destruct (Z.eqb_spec y k) as [->|Hne].
    + exfalso. apply Hnot. left.
    + rewrite IH; [reflexivity|]. intros Hin. apply Hnot. right. exact Hin.
Qed.

Lemma dict_del_keys (d : dict Z) k : forall r,
  list_remove k (dict_keys d) = Ok r ->
  exists d', dict_del d k = Ok d' /\ dict_keys d' = r.
Proof.
  induction d as [|[k' v] d IH]; simpl; intros r Hr; [discriminate|].
  destruct (Z.eqb k' k).
  - injection Hr as <-. eexists. split; reflexivity.
  - destruct (list_remove k (dict_keys d)) as [r'|e] eqn:E; [|discriminate].
    injection Hr as <-. destruct (IH r' eq_refl) as (d' & -> & Hk).
    eexists. split; [reflexivity|]. simpl. rewrite Hk. reflexivity.
Qed.

Lemma dict_get_freq_of (d : dict Z) k :
  k ∈ dict_keys d -> dict_get d k = Ok (freq_of d k).
Proof.
  unfold freq_of. induction d as [|[k' v] d IH]; simpl.
  - intros H. inversion H.
  - intros H. destruct (Z.eqb_spec k' k) as [->|Hne]; [reflexivity|].
    apply IH. inversion H; subst; [congruence|assumption].
Qed.

(** * The frequency analyser *)

Lemma dict_contains_keys {V} (d : dict V) k :
  dict_contains d k = true <-> k ∈ dict_keys d.
Proof.
  unfold dict_contains. induction d as [|[k' v] d IH]; simpl.
  - split; [discriminate|]. intros H. inversion H.
  - destruct (Z.eqb_spec k' k) as [->|Hne].
    + split; [intros _; left|reflexivity].
    + rewrite IH. split.
      * intros H. right. exact H.
      * intros H. inversion H; subst; [congruence|assumption].
Qed.

Lemma dict_set_keys {V} (d : dict V) k v :
  dict_keys (dict_set d k v) =
  if dict_contains d k then dict_keys d else dict_keys d ++ [k].
Proof.
  unfold dict_contains. induction d as [|[k' v'] d IH]; simpl; [reflexivity|].
  destruct (Z.eqb k' k); simpl; [reflexivity|].
  rewrite IH. destruct (dict_get d k); reflexivity.
Qed.

(** The frequency analyser never fails; its table has one key per byte
    value of the text. *)
Lemma make_freq_dict_keys (text : list Z) :
  exists d, make_freq_dict text = Ok d /\ NoDup (dict_keys d) /\
    forall k, k ∈ dict_keys d <-> k ∈ text.
Proof.
  unfold make_freq_dict.
  assert (H : forall (d0 : dict Z), NoDup (dict_keys d0) ->
    exists d, for_each
      (fun dic char =>
         if negb (dict_contains dic char) then Ok (dict_set dic char 1)
         else c ← dict_get dic char; Ok (dict_set dic char (c + 1)))
      text d0 = Ok d /\ NoDup (dict_keys d) /\
      forall k, k ∈ dict_keys d <-> k ∈ dict_keys d0 \/ k ∈ text).
  { induction text as [|x text IH]; intros d0 Hnd; cbn [for_each].
    - exists d0. repeat split; [exact Hnd|auto|].
      intros [H|H]; [exact H|inversion H].
    - destruct (dict_contains d0 x) eqn:Ex; cbn [negb].
      + assert (Hx : x ∈ dict_keys d0) by (apply dict_contains_keys, Ex).
        rewrite (dict_get_freq_of d0 x Hx). cbn.
        destruct (IH (dict_set d0 x (freq_of d0 x + 1)))
          as (d & Hd & Hnd' & Hk).
        { rewrite dict_set_keys, Ex. exact Hnd. }
        exists d. split; [exact Hd|]. split; [exact Hnd'|].
        intros k. rewrite Hk, dict_set_keys, Ex. split.
        * intros [H|H]; [left; exact H|right; right; exact H].
        * intros [H|H]; [left; exact H|].
          inversion H; subst; [left; exact Hx|right; assumption].
      + cbn. destruct (IH (dict_set d0 x 1)) as (d & Hd & Hnd' & Hk).
        { rewrite dict_set_keys, Ex. apply NoDup_app. split; [exact Hnd|].
          split; [|apply NoDup_singleton].
          intros y Hy Hy'. apply list_elem_of_singleton in Hy' as ->.
          apply dict_contains_keys in Hy. congruence. }
        exists d. split; [exact Hd|]. split; [exact Hnd'|].
        intros k.
        rewrite Hk, dict_set_keys, Ex, elem_of_app, list_elem_of_singleton.
        split.
        * intros [[H| ->]|H]; [left; exact H|right; left|right; right; exact H].
        * intros [H|H]; [left; left; exact H|].
          inversion H; subst; [left; right; reflexivity|right; assumption]. }
  destruct (H [] (NoDup_nil_2)) as (d & Hd & Hnd & Hk).
  exists d. split; [exact Hd|]. split; [exact Hnd|].
  intros k. rewrite Hk. split; [intros [H0|H0]; [inversion H0|exact H0]|auto].
Qed.

(** * The tree builder *)

(** ** The scan for the biggest key *)

Lemma scan_max_spec f l : forall cur,
  (scan_max f cur l = cur /\ Forall (fun y => f y <= f cur) l) \/
  (exists l1 l2, l = l1 ++ scan_max f cur l :: l2 /\
     f cur < f (scan_max f cur l) /\
     Forall (fun y => f y < f (scan_max f cur l)) l1 /\
     Forall (fun y => f y <= f (scan_max f cur l)) l2).
Proof.
  induction l as [|x l IH]; intros cur; cbn [scan_max].
  - left. split; [reflexivity|constructor].
  - destruct (Z.gtb_spec (f x) (f cur)) as [Hgt|Hle].
    + right. destruct (IH x) as [[Hk Hall]|(l1 & l2 & Hl & Hlt & H1 & H2)].
      * exists [], l. rewrite Hk.
        repeat split; [lia|constructor|assumption].
      * exists (x :: l1), l2.
        repeat split; [rewrite Hl at 1; reflexivity|lia| |assumption].
        constructor; [lia|assumption].
    + destruct (IH cur) as [[Hk Hall]|(l1 & l2 & Hl & Hlt & H1 & H2)].
      * left. split; [assumption|]. constructor; [lia|assumption].
      * right. exists (x :: l1), l2.
        repeat split; [rewrite Hl at 1; reflexivity|lia| |assumption].
        constructor; [lia|assumption].
Qed.

Lemma for_each_scan (d : dict Z) l : forall cur,
  cur ∈ dict_keys d -> l ⊆ dict_keys d ->
  for_each (fun current_key key =>
              fk ← dict_get d key;
              fc ← dict_get d current_key;
              Ok (if fk >? fc then key else current_key)) l cur
  = Ok (scan_max (freq_of d) cur l).
Proof.
  induction l as [|x l IH]; intros cur Hcur Hl; simpl; [reflexivity|].
  assert (Hx : x ∈ dict_keys d) by (apply Hl; left).
  rewrite (dict_get_freq_of d x Hx), (dict_get_freq_of d cur Hcur). simpl.
  apply IH.
  - destruct (_ >? _); assumption.
  - intros y Hy. apply Hl. right. exact Hy.
Qed.

(** [find_biggest_key] returns the first key of the list whose count is
    the largest: strictly larger than every count before it, at least as
    large as every count after it. *)
Lemma find_biggest_key_spec (d : dict Z) (kl : list Z) :
  kl <> [] -> kl ⊆ dict_keys d ->
  exists k l1 l2, find_biggest_key d kl = Ok (Some k) /\ kl = l1 ++ k :: l2 /\
    Forall (fun y => freq_of d y < freq_of d k) l1 /\
    Forall (fun y => freq_of d y <= freq_of d k) l2.
Proof.
  destruct kl as [|k0 rest]; [congruence|]. intros _ Hsub.
  assert (H0 : k0 ∈ dict_keys d) by (apply Hsub; left).
  unfold find_biggest_key. run (for_each_scan d (k0 :: rest) k0 H0 Hsub).
  change (scan_max (freq_of d) k0 (k0 :: rest))
    with (scan_max (freq_of d)
            (if freq_of d k0 >? freq_of d k0 then k0 else k0) rest).
  replace (if freq_of d k0 >? freq_of d k0 then k0 else k0) with k0
    by (destruct (_ >? _); reflexivity).
  destruct (scan_max_spec (freq_of d) rest k0)
    as [[Hk Hall]|(l1 & l2 & Hl & Hlt & H1 & H2)].
  - exists k0, [], rest. rewrite Hk.
    repeat split; [constructor|assumption].
  - eexists _, (k0 :: l1), l2.
    repeat split; [rewrite Hl at 1; reflexivity| |assumption].
    constructor; assumption.
Qed.

(** ** The ordering loop *)

Lemma order_loop_spec (d : dict Z) :
  forall fuel kl temp frequency biggest,
  (length kl <= fuel)%nat ->
  NoDup kl -> kl `sublist_of` dict_keys d ->
  dict_keys frequency = kl ->
  find_biggest_key d kl = Ok biggest ->
  exists ks, order_loop d fuel temp frequency kl biggest = Ok (temp ++ ks) /\
    ks ≡ₚ kl /\ StronglySorted (comes_before d) ks.
Proof.
  induction fuel as [|fuel IH];
    intros kl temp frequency biggest Hfuel Hnd Hsub Hfr Hbig.
  - destruct kl; [|simpl in Hfuel; lia].
    exists []. simpl. rewrite app_nil_r. repeat split; constructor.
  - destruct kl as [|k0 rest] eqn:Ekl.
    { exists []. simpl. rewrite app_nil_r. repeat split; constructor. }
    rewrite <- Ekl in *.
    assert (Hne : kl <> []) by (rewrite Ekl; discriminate).
    destruct (find_biggest_key_spec d kl Hne (sublist_subseteq _ _ Hsub))
      as (k & l1 & l2 & Hfb & Hsplit & H1 & H2).
    rewrite Hfb in Hbig. injection Hbig as <-.
    assert (Hk1 : k ∉ l1).
    { rewrite Hsplit in Hnd. apply NoDup_app in Hnd as (_ & Hd & _).
      intros Hin. apply (Hd k Hin). left. }
    pose proof (list_remove_split k l1 l2 Hk1) as Hrem.
    rewrite <- Hsplit in Hrem.
    destruct (dict_del_keys frequency k (l1 ++ l2)) as (fr' & Hdel & Hfr').
    { rewrite Hfr. exact Hrem. }
    assert (Hsub' : (l1 ++ l2) `sublist_of` kl).
    { rewrite Hsplit. apply sublist_app; [reflexivity|].
      apply sublist_cons. reflexivity. }
    assert (Hnd' : NoDup (l1 ++ l2)) by (eapply sublist_NoDup; eassumption).
    destruct (find_biggest_key d (l1 ++ l2)) as [big'|e] eqn:Ebig'.
    2:{ exfalso. destruct (l1 ++ l2) as [|z zs] eqn:E12; [discriminate|].
        destruct (find_biggest_key_spec d (z :: zs)) as (? & ? & ? & Hc & _).
        - discriminate.
        - apply sublist_subseteq. etrans; eassumption.
        - congruence. }
    destruct (IH (l1 ++ l2) (temp ++ [k]) fr' big')
      as (ks & Hloop & Hperm & Hsorted).
    { rewrite Hsplit in Hfuel. rewrite length_app in *. simpl in Hfuel. lia. }
    { exact Hnd'. } { etrans; eassumption. } { exact Hfr'. } { exact Ebig'. }
    exists (k :: ks). split; [|split].
    + rewrite Ekl. cbn [order_loop]. rewrite <- Ekl.
      run Hdel. run Hrem. run Ebig'.
      rewrite Hloop, <- app_assoc. reflexivity.
    + rewrite Hsplit, Hperm. apply Permutation_middle.
    + constructor; [exact Hsorted|].
      rewrite Hperm. apply Forall_app. split.
      * eapply Forall_impl; [exact H1|]. intros y Hy. left. exact Hy.
      * rewrite Forall_forall in H2 |- *. intros y Hy.
        destruct (Z.eq_dec (freq_of d y) (freq_of d k)) as [Heq|Hneq].
        -- right. split; [symmetry; exact Heq|].
           etrans; [|exact Hsub]. rewrite Hsplit.
           apply sublist_inserts_l. apply sublist_skip.
           apply sublist_cons_l.
           apply list_elem_of_split in Hy as (a & b & ->).
           exists a, b. split; [reflexivity|apply sublist_nil_l].
        -- left. specialize (H2 y Hy). lia.
Qed.

Lemma sublist_pair_asym (l : list Z) a b :
  NoDup l -> [a; b] `sublist_of` l -> [b; a] `sublist_of` l -> False.
Proof.
  induction l as [|x l IH]; intros Hnd Hab Hba.
  - apply sublist_nil_r in Hab. discriminate.
  - apply NoDup_cons in Hnd as [Hx Hnd].
    apply sublist_cons_r in Hab as [Hab|(k1 & E1 & Hk1)];
      apply sublist_cons_r in Hba as [Hba|(k2 & E2 & Hk2)].
    + exact (IH Hnd Hab Hba).
    + simplify_eq. apply Hx.
      apply (sublist_subseteq _ _ Hab). right. left.
    + simplify_eq. apply Hx.
      apply (sublist_subseteq _ _ Hba). right. left.
    + simplify_eq. apply Hx.
      apply (sublist_subseteq _ _ Hk1). left.
Qed.

Lemma comes_before_asym (d : dict Z) a b :
  NoDup (dict_keys d) -> comes_before d a b -> comes_before d b a -> a = b.
Proof.
  intros Hnd [H1|[E1 S1]] [H2|[E2 S2]]; try lia.
  exfalso. exact (sublist_pair_asym _ _ _ Hnd S1 S2).
Qed.

(** The documented order of a table is one list. *)
Lemma documented_order_unique (d : dict Z) ks1 ks2 :
  NoDup (dict_keys d) ->
  documented_order d ks1 -> documented_order d ks2 -> ks1 = ks2.
Proof.
  intros Hnd [P1 S1] [P2 S2].
  apply (StronglySorted_unique_strong (comes_before d)); try assumption.
  - intros x1 x2 _ _. apply comes_before_asym. exact Hnd.
  - rewrite P1, P2. reflexivity.
Qed.

(** ** The queue of leaves and the merge loop *)

Lemma leaves_loop_spec : forall fuel temp nodes_list,
  (length temp <= fuel)%nat ->
  leaves_loop fuel temp nodes_list = Ok (nodes_list ++ rev (Leaf <$> temp)).
Proof.
  induction fuel as [|fuel IH]; intros temp nodes_list Hfuel.
  - destruct temp; [|simpl in Hfuel; lia].
    simpl. rewrite app_nil_r. reflexivity.
  - destruct (snoc_case temp) as [->|(t' & k & ->)].
    + simpl. rewrite app_nil_r. reflexivity.
    + destruct (t' ++ [k]) as [|z zs] eqn:E.
      { destruct t'; discriminate. }
      cbn [leaves_loop]. rewrite <- E. run (list_pop_snoc t' k).
      rewrite IH.
      * rewrite fmap_app, rev_app_distr, <- app_assoc. reflexivity.
      * rewrite <- E, length_app in Hfuel. simpl in Hfuel. lia.
Qed.

Lemma merge_loop_spec : forall fuel queue,
  queue <> [] -> (length queue <= fuel)%nat ->
  exists root, merge_loop fuel queue = Ok root /\ merge_policy queue root.
Proof.
  induction fuel as [|fuel IH]; intros queue Hne Hfuel.
  - destruct queue; [congruence|simpl in Hfuel; lia].
  - destruct (snoc_case queue) as [->|(q1 & n1 & ->)]; [congruence|].
    cbn [merge_loop]. run (list_pop_snoc q1 n1).
    destruct (snoc_case q1) as [->|(q2 & n2 & ->)].
    + exists n1. split; [reflexivity|]. apply rtc_refl.
    + destruct (q2 ++ [n2]) as [|z zs] eqn:E.
      { destruct q2; discriminate. }
      pose proof (f_equal length E) as Hlen.
      rewrite length_app in Hlen. simpl in Hlen.
      rewrite <- E. run (list_pop_snoc q2 n2).
      destruct (IH (Internal n1 n2 :: q2)) as (root & Hr & Hp).
      * discriminate.
      * rewrite length_app in Hfuel. simpl in *. lia.
      * exists root. split; [exact Hr|].
        eapply rtc_l; [|exact Hp].
        rewrite <- app_assoc. apply merge_tail.
Qed.

Lemma merge_step_deterministic q q1 q2 :
  merge_step q q1 -> merge_step q q2 -> q1 = q2.
Proof.
  intros H1 H2. destruct H1 as [qa sa fa]. inversion H2 as [qb sb fb Heq].
  assert (E : (qb ++ [sb]) ++ [fb] = (qa ++ [sa]) ++ [fa])
    by (rewrite <- !app_assoc; exact Heq).
  apply app_inj_tail in E as [E ->].
  apply app_inj_tail in E as [-> ->]. reflexivity.
Qed.

Lemma merge_step_singleton root q : ~ merge_step [root] q.
Proof.
  intros H. inversion H as [qa sa fa Heq].
  apply (f_equal length) in Heq. rewrite length_app in Heq. simpl in Heq. lia.
Qed.

Lemma merge_policy_singleton a root : merge_policy [a] root -> root = a.
Proof.
  intros H. apply rtc_inv in H as [E|(y & Hs & _)]; [congruence|].
  exfalso. eapply merge_step_singleton, Hs.
Qed.

(** The policy ends in one node only. *)
Lemma merge_policy_unique q r1 r2 :
  merge_policy q r1 -> merge_policy q r2 -> r1 = r2.
Proof.
  unfold merge_policy. intros H1. remember [r1] as z eqn:Ez.
  revert r1 r2 Ez.
  induction H1 as [x|x y z Hxy Hyz IH]; intros r1 r2 -> H2.
  - symmetry. apply merge_policy_singleton. exact H2.
  - apply rtc_inv in H2 as [E|(y' & Hs & Hr)].
    + subst. exfalso. eapply merge_step_singleton. exact Hxy.
    + apply IH; [reflexivity|].
      rewrite (merge_step_deterministic _ _ _ Hxy Hs). exact Hr.
Qed.

(** ** [huffman_tree] on a non-empty table *)

Lemma huffman_tree_runs (freq_dict : dict Z) :
  freq_dict <> [] -> NoDup (dict_keys freq_dict) ->
  exists ks root, documented_order freq_dict ks /\
    merge_policy (Leaf <$> ks) root /\ huffman_tree freq_dict = Ok root.
Proof.
  intros Hne Hnd. unfold huffman_tree.
  assert (Hkeys : dict_keys freq_dict <> [])
    by (destruct freq_dict; [congruence|discriminate]).
  destruct (find_biggest_key_spec freq_dict (dict_keys freq_dict) Hkeys)
    as (k & l1 & l2 & Hfb & _); [set_solver|].
  run Hfb.
  destruct (order_loop_spec freq_dict (length (dict_keys freq_dict))
              (dict_keys freq_dict) [] freq_dict (Some k))
    as (ks & Hloop & Hperm & Hsorted); try done.
  run Hloop. cbn [app].
  run (leaves_loop_spec (length ks) ks [] (le_n _)).
  cbn [app]. rewrite rev_involutive.
  destruct (merge_loop_spec (S (length (rev (Leaf <$> ks)))) (Leaf <$> ks))
    as (root & Hroot & Hpol).
  - intros E. apply fmap_nil_inv in E. subst ks.
    apply Permutation_nil_l in Hperm. congruence.
  - rewrite length_rev. lia.
  - exists ks, root. repeat split; assumption.
Qed.

(** C2. For every non-empty frequency table (a dictionary, so its keys
    are pairwise distinct), [huffman_tree] returns a tree, and that tree is
    the one the documented policy determines: the symbols ordered by
    descending frequency, ties going to the symbol met first in a
    left-to-right scan of the table, turned into a queue of leaves with the
    most frequent in front; the two tail nodes removed and merged (left =
    first removed, right = second removed) into an internal node put at the
    head, until one node remains, the root. *)
Theorem huffman_tree_merge_policy (freq_dict : dict Z) :
  freq_dict <> [] -> NoDup (dict_keys freq_dict) ->
  exists root, huffman_tree freq_dict = Ok root /\
    forall t, policy_tree freq_dict t <-> t = root.
Proof.
  intros Hne Hnd.
  destruct (huffman_tree_runs freq_dict Hne Hnd) as (ks & root & Ho & Hp & Hr).
  exists root. split; [exact Hr|]. intros t. split.
  - intros (ks' & Hord & Hpol').
    rewrite (documented_order_unique freq_dict ks' ks Hnd Hord Ho) in Hpol'.
    exact (merge_policy_unique _ _ _ Hpol' Hp).
  - intros ->. exists ks. split; assumption.
Qed.

Lemma huffman_tree_merge_policy_witness :
  exists root, huffman_tree [(2, 6); (3, 4)] = Ok root /\
    forall t, policy_tree [(2, 6); (3, 4)] t <-> t = root.
Proof.
  apply (huffman_tree_merge_policy [(2, 6); (3, 4)]).
  - discriminate.
  - apply (bool_decide_unpack _). vm_compute. exact I.
Defined.

(** C8 (as the code has it). For every frequency table with exactly one
    symbol [s], [huffman_tree] returns the bare leaf carrying [s], with no
    internal root above it, and [get_codes] of that leaf is the empty
    table: [s] gets no code. *)
Theorem huffman_tree_single_symbol (s c : Z) :
  huffman_tree [(s, c)] = Ok (Leaf s) /\ get_codes (Leaf s) = Ok ∅.
Proof.
  split; [|reflexivity].
  unfold huffman_tree, find_biggest_key. cbn -[Z.eqb Z.gtb].
  rewrite Z.eqb_refl. cbn -[Z.eqb Z.gtb].
  destruct (c >? c); rewrite Z.eqb_refl; reflexivity.
Qed.

(** On the table [{5: 10}] the root is not an internal node with two
    leaves for 5, and 5 has no code. *)
Lemma single_symbol_root_not_internal :
  ~ (exists root l r codes code,
       huffman_tree [(5, 10)] = Ok root /\
       left root = Some l /\ right root = Some r /\
       is_leaf l = true /\ is_leaf r = true /\
       symbol l = Some 5 /\ symbol r = Some 5 /\
       get_codes root = Ok codes /\ codes !! Some 5 = Some code /\
       (1 <= String.length code)%nat).
Proof.
  intros (root & l & r & codes & code & Hroot & Hl & _).
  vm_compute in Hroot. injection Hroot as <-. discriminate.
Qed.

(** C10 (as the code has it). On the empty frequency table [huffman_tree]
    fails and returns no tree; the exception is the [IndexError] of popping
    the empty node list. *)
Theorem huffman_tree_empty_table : huffman_tree [] = Raise IndexError.
Proof. reflexivity. Qed.

(** The failure on the empty table is not an [EmptyInputError]. *)
Lemma empty_table_not_EmptyInputError :
  huffman_tree [] <> Raise (UserError "EmptyInputError").
Proof. discriminate. Qed.

(** * The code table *)

Lemma get_codes_internal sym l r k :
  get_codes (MkNode sym (Some l) (Some r) k) =
  dl ← child_codes "0" l; dr ← child_codes "1" r; Ok (dr ∪ dl).
Proof.
  cbn [get_codes]. unfold child_codes, mbind, result_bind, bind.
  change (is_leaf (MkNode sym (Some l) (Some r) k)) with false. cbv iota.
  destruct (is_leaf l); [|destruct (get_codes l) as [tl|e]; [|reflexivity]];
    (destruct (is_leaf r); [|destruct (get_codes r); [|reflexivity]]);
    rewrite ?insert_empty, ?(right_id_L ∅ (∪)), ?insert_union_singleton_l;
    reflexivity.
Qed.

Lemma leaf_symbols_internal sym l r k :
  leaf_symbols (MkNode sym (Some l) (Some r) k) =
  leaf_symbols l ++ leaf_symbols r.
Proof. reflexivity. Qed.

Lemma path_to_leaf_symbols t p s : path_to t p s -> s ∈ leaf_symbols t.
Proof.
  induction 1 as [s k|sym l r k p s _ IH|sym l r k p s _ IH]; cbn.
  - left.
  - destruct r; apply elem_of_app; left; exact IH.
  - destruct l; apply elem_of_app; right; exact IH.
Qed.

Lemma leaf_symbols_path_to t s :
  well_formed t -> s ∈ leaf_symbols t -> exists p, path_to t p s.
Proof.
  induction 1 as [s' k|sym l r k _ IHl _ IHr]; intros Hin.
  - apply list_elem_of_singleton in Hin as ->. eexists. constructor.
  - rewrite leaf_symbols_internal in Hin.
    apply elem_of_app in Hin as [Hin|Hin].
    + destruct (IHl Hin) as [p Hp]. eexists. apply path_left, Hp.
    + destruct (IHr Hin) as [p Hp]. eexists. apply path_right, Hp.
Qed.

Lemma string_prefix_refl (p : string) : String.prefix p p = true.
Proof.
  induction p as [|a p IH]; cbn; [reflexivity|].
  destruct (ascii_dec a a); [exact IH|congruence].
Qed.

(** A path that ends at a leaf is a prefix of no other path. *)
Lemma path_to_prefix t p1 s1 : path_to t p1 s1 ->
  forall p2 s2, path_to t p2 s2 -> String.prefix p1 p2 = true ->
  p1 = p2 /\ s1 = s2.
Proof.
  induction 1 as [s k|sym l r k p s _ IH|sym l r k p s _ IH];
    intros p2 s2 H2 Hpre;
    inversion H2 as [|? ? ? ? p0 ? Hp0|? ? ? ? p0 ? Hp0]; subst;
    cbn in Hpre; try discriminate; try (split; reflexivity);
    destruct (IH _ _ Hp0 Hpre) as [-> ->]; split; reflexivity.
Qed.

Lemma holds_paths_elem m pre t key code :
  holds_paths m pre t -> m !! key = Some code ->
  exists s, key = Some s /\ s ∈ leaf_symbols t.
Proof.
  intros Hm Hk. apply Hm in Hk as (s & p & -> & _ & Hp).
  exists s. split; [reflexivity|]. eapply path_to_leaf_symbols, Hp.
Qed.

Lemma holds_paths_prefix_free codes t :
  holds_paths codes id t -> prefix_free codes.
Proof.
  intros Gc s1 s2 c1 c2 Hne H1 H2.
  apply Gc in H1 as (a1 & p1 & -> & -> & Hp1).
  apply Gc in H2 as (a2 & p2 & -> & -> & Hp2). unfold id.
  assert (Hpre : String.prefix p1 p2 = false).
  { destruct (String.prefix p1 p2) eqn:E; [|reflexivity].
    destruct (path_to_prefix _ _ _ Hp1 _ _ Hp2 E) as [_ ->]. congruence. }
  split; [|exact Hpre].
  intros ->. rewrite string_prefix_refl in Hpre. discriminate.
Qed.

(** The contribution of a well-formed subtree to its parent, and the table
    of a well-formed tree with an internal root. *)
Lemma child_codes_spec t : well_formed t -> NoDup (leaf_symbols t) ->
  (forall bit, exists m, child_codes bit t = Ok m /\
     holds_paths m (String bit) t /\ size m = length (leaf_symbols t)) /\
  (is_leaf t = false -> exists codes, get_codes t = Ok codes /\
     holds_paths codes id t /\ size codes = length (leaf_symbols t)).
Proof.
  induction 1 as [s k|sym l r k Hl IHl Hr IHr]; intros Hnd.
  - split; [|discriminate]. intros bit. eexists. split; [reflexivity|].
    split; [|apply map_size_singleton].
    intros key code. cbn [symbol]. rewrite lookup_singleton_Some. split.
    + intros [<- <-]. exists s, EmptyString. repeat split. constructor.
    + intros (s' & p & -> & -> & Hp). inversion Hp; subst. split; reflexivity.
  - rewrite leaf_symbols_internal in Hnd.
    apply NoDup_app in Hnd as (Hndl & Hdisj & Hndr).
    destruct (IHl Hndl) as [IHl1 _]. destruct (IHr Hndr) as [IHr1 _].
    destruct (IHl1 "0"%char) as (ml & Hml & Gl & Sl).
    destruct (IHr1 "1"%char) as (mr & Hmr & Gr & Sr).
    assert (Hdm : mr ##ₘ ml).
    { apply map_disjoint_spec. intros key x y Hx Hy.
      destruct (holds_paths_elem _ _ _ _ _ Gr Hx) as (s1 & -> & Hin1).
      destruct (holds_paths_elem _ _ _ _ _ Gl Hy) as (s2 & E & Hin2).
      injection E as <-. exact (Hdisj _ Hin2 Hin1). }
    assert (Hroot : exists codes,
      get_codes (MkNode sym (Some l) (Some r) k) = Ok codes /\
      holds_paths codes id (MkNode sym (Some l) (Some r) k) /\
      size codes = length (leaf_symbols l ++ leaf_symbols r)).
    { exists (mr ∪ ml). rewrite get_codes_internal. run Hml. run Hmr.
      split; [reflexivity|]. split.
      - intros key code. rewrite (lookup_union_Some _ _ _ _ Hdm).
        rewrite (Gl key code), (Gr key code). unfold id. split.
        + intros [(s & p & -> & -> & Hp)|(s & p & -> & -> & Hp)];
            exists s; eexists; (split; [reflexivity|split; [reflexivity|]]).
          * apply path_right. exact Hp.
          * apply path_left. exact Hp.
        + intros (s & p & -> & -> & Hp).
          inversion Hp as [|? ? ? ? p' ? Hp'|? ? ? ? p' ? Hp']; subst.
          * right. exists s, p'. repeat split. exact Hp'.
          * left. exists s, p'. repeat split. exact Hp'.
      - rewrite (map_size_disj_union _ _ Hdm), Sl, Sr, length_app. lia. }
    split; [|intros _; exact Hroot].
    intros bit. destruct Hroot as (codes & Hc & Gc & Sc).
    exists (String bit <$> codes). unfold child_codes.
    change (is_leaf (MkNode sym (Some l) (Some r) k)) with false. cbv iota.
    run Hc. split; [reflexivity|]. split.
    + intros key code. rewrite lookup_fmap, fmap_Some. split.
      * intros (c0 & Hc0 & ->). apply Gc in Hc0 as (s & p & -> & -> & Hp).
        exists s, p. repeat split. exact Hp.
      * intros (s & p & -> & -> & Hp). exists p. split; [|reflexivity].
        apply Gc. exists s, p. repeat split. exact Hp.
    + rewrite map_size_fmap. exact Sc.
Qed.

(** C3. For every tree with an internal root whose leaves carry pairwise
    distinct symbols (a tree built over a set of two or more symbols),
    [get_codes] returns a table that gives a symbol the code [p] exactly
    when [p] is the root-to-leaf path of its leaf, written with "0" for a
    left edge and "1" for a right edge, so that a leaf child is one bit
    below its parent; the table has one entry per leaf and no other key,
    different symbols have different codes, and no code is a prefix of
    another. *)
Theorem get_codes_paths_prefix_free (tree : HuffmanNode) :
  well_formed tree -> is_leaf tree = false -> NoDup (leaf_symbols tree) ->
  exists codes, get_codes tree = Ok codes /\
    (forall s p, codes !! Some s = Some p <-> path_to tree p s) /\
    codes !! None = None /\
    size codes = length (leaf_symbols tree) /\
    prefix_free codes.
Proof.
  intros Hwf Hint Hnd.
  destruct (child_codes_spec tree Hwf Hnd) as [_ Hroot].
  destruct (Hroot Hint) as (codes & Hc & Gc & Sc).
  exists codes. split; [exact Hc|]. split; [|split; [|split; [exact Sc|]]].
  - intros s p. rewrite (Gc (Some s) p). unfold id. split.
    + intros (s' & p' & E & -> & Hp). injection E as ->. exact Hp.
    + intros Hp. exists s, p. repeat split. exact Hp.
  - destruct (codes !! None) as [c|] eqn:E; [|reflexivity].
    apply Gc in E as (s & p & E & _). discriminate.
  - exact (holds_paths_prefix_free codes tree Gc).
Qed.

Lemma get_codes_paths_prefix_free_witness :
  exists codes,
    get_codes (Internal (Leaf 3) (Internal (Leaf 2) (Leaf 5))) = Ok codes /\
    (forall s p, codes !! Some s = Some p <->
       path_to (Internal (Leaf 3) (Internal (Leaf 2) (Leaf 5))) p s) /\
    codes !! None = None /\
    size codes =
      length (leaf_symbols (Internal (Leaf 3) (Internal (Leaf 2) (Leaf 5)))) /\
    prefix_free codes.
Proof.
  apply (get_codes_paths_prefix_free
           (Internal (Leaf 3) (Internal (Leaf 2) (Leaf 5)))).
  - repeat constructor.
  - reflexivity.
  - apply (bool_decide_unpack _). vm_compute. exact I.
Defined.

(** ** The table of a tree built by [huffman_tree] *)

(** The policy keeps the nodes well formed and the leaves it started
    from; from two or more nodes it ends in an internal node. *)
Lemma merge_policy_well_formed queue root :
  merge_policy queue root -> Forall well_formed queue ->
  well_formed root /\
  leaf_symbols root ≡ₚ concat (leaf_symbols <$> queue) /\
  ((2 <= length queue)%nat -> is_leaf root = false).
Proof.
  unfold merge_policy. intros H. remember [root] as z eqn:Ez. revert root Ez.
  induction H as [x|x y z Hxy Hyz IH]; intros root -> Hwf.
  - rewrite Forall_singleton in Hwf. split; [exact Hwf|]. split.
    + cbn. rewrite app_nil_r. reflexivity.
    + cbn. lia.
  - destruct Hxy as [q n2 n1].
    rewrite Forall_app, Forall_cons, Forall_singleton in Hwf.
    destruct Hwf as (Hq & Hn2 & Hn).
    destruct (IH root eq_refl) as (Hr & Hp & Hi).
    { constructor; [constructor; assumption|exact Hq]. }
    split; [exact Hr|]. split.
    + rewrite Hp, fmap_app, concat_app. cbn. rewrite app_nil_r.
      rewrite (Permutation_app_comm (leaf_symbols n1) (leaf_symbols n2)).
      apply Permutation_app_comm.
    + intros _. destruct q as [|a q]; [|apply Hi; cbn; lia].
      rewrite (merge_policy_singleton _ _ Hyz). reflexivity.
Qed.

Lemma leaf_symbols_leaves ks : concat (leaf_symbols <$> (Leaf <$> ks)) = ks.
Proof. induction ks as [|k ks IH]; cbn; [|rewrite IH]; reflexivity. Qed.

(** For a table of two or more symbols the tree of [huffman_tree] has an
    internal root and carries each symbol of the table at one leaf; its
    code table has one code per symbol of the table and is prefix-free. *)
Lemma huffman_tree_codes_prefix_free (freq_dict : dict Z) :
  NoDup (dict_keys freq_dict) -> (2 <= length freq_dict)%nat ->
  exists root codes,
    huffman_tree freq_dict = Ok root /\ get_codes root = Ok codes /\
    (forall s, is_Some (codes !! Some s) <-> s ∈ dict_keys freq_dict) /\
    size codes = length freq_dict /\
    prefix_free codes.
Proof.
  intros Hnd Hlen.
  destruct (huffman_tree_runs freq_dict) as (ks & root & [Hperm _] & Hp & Hr);
    [destruct freq_dict; [simpl in Hlen; lia|discriminate]|exact Hnd|].
  destruct (merge_policy_well_formed _ _ Hp) as (Hwf & Hleaves & Hint).
  { apply Forall_fmap, Forall_forall. intros k _. constructor. }
  rewrite leaf_symbols_leaves, Hperm in Hleaves.
  assert (Hroot : is_leaf root = false).
  { apply Hint. rewrite length_fmap, Hperm.
    unfold dict_keys. rewrite length_map. exact Hlen. }
  destruct (child_codes_spec root Hwf) as [_ Hcodes];
    [rewrite Hleaves; exact Hnd|].
  destruct (Hcodes Hroot) as (codes & Hc & Gc & Sc).
  exists root, codes. split; [exact Hr|]. split; [exact Hc|].
  split; [|split].
  - intros s. rewrite <- Hleaves. split.
    + intros [c Hs]. apply Gc in Hs as (s' & p & E & _ & Hpath).
      injection E as <-. eapply path_to_leaf_symbols, Hpath.
    + intros Hin. destruct (leaf_symbols_path_to root s Hwf Hin) as [p Hpath].
      exists p. apply Gc. exists s, p. repeat split. exact Hpath.
  - rewrite Sc, Hleaves. unfold dict_keys. apply length_map.
  - exact (holds_paths_prefix_free codes root Gc).
Qed.

(** From a text with two different bytes the compressor gets a table, a
    tree and a prefix-free code table with a code for every byte of the
    text. *)
Lemma text_codes_prefix_free (text : list Z) a b :
  a ∈ text -> b ∈ text -> a <> b ->
  exists freq root codes,
    make_freq_dict text = Ok freq /\ huffman_tree freq = Ok root /\
    get_codes root = Ok codes /\
    (forall s, s ∈ text -> is_Some (codes !! Some s)) /\
    prefix_free codes.
Proof.
  intros Ha Hb Hab.
  destruct (make_freq_dict_keys text) as (freq & Hf & Hnd & Hk).
  assert (Hlen : (2 <= length freq)%nat).
  { apply Hk in Ha, Hb. unfold dict_keys in Ha, Hb.
    destruct freq as [|x [|y l]]; cbn in *; [inversion Ha| |lia].
    apply list_elem_of_singleton in Ha, Hb. congruence. }
  destruct (huffman_tree_codes_prefix_free freq Hnd Hlen)
    as (root & codes & Hr & Hc & Hdom & _ & Hpf).
  exists freq, root, codes.
  split; [exact Hf|]. split; [exact Hr|]. split; [exact Hc|].
  split; [|exact Hpf].
  intros s Hs. apply Hdom, Hk, Hs.
Qed.

(** * The decoder *)

(** No byte sequence comes back from the codec: [generate_uncompressed]
    has no body. *)
Lemma codec_round_trip_never_input (S : list Z) :
  codec_round_trip S <> Ok (Some S).
Proof.
  unfold codec_round_trip, generate_uncompressed, mbind, result_bind, bind.
  repeat (match goal with
          | |- context [match ?m with Ok _ => _ | Raise _ => _ end] =>
              destruct m
          end); discriminate.
Qed.

(** C1 (defect). On the two bytes 65, 66 the frequency table, the tree,
    the code table and the packed byte are computed, but decoding the packed
    byte with that tree and the length 2 returns [None], not the two
    bytes. *)
Theorem round_trip_two_bytes :
  make_freq_dict [65; 66] = Ok [(65, 1); (66, 1)] /\
  huffman_tree [(65, 1); (66, 1)] = Ok (Internal (Leaf 66) (Leaf 65)) /\
  get_codes (Internal (Leaf 66) (Leaf 65)) =
    Ok (<[Some 66 := "0"%string]> (<[Some 65 := "1"%string]> ∅)) /\
  generate_compressed [65; 66]
    (<[Some 66 := "0"%string]> (<[Some 65 := "1"%string]> ∅)) = Ok [128] /\
  generate_uncompressed (Internal (Leaf 66) (Leaf 65)) [128] 2 = None /\
  codec_round_trip [65; 66] = Ok None.
Proof. repeat split; vm_compute; reflexivity. Qed.

(** * The bit packer *)

(** C4 (defect). The scenario of the claim holds: codes 0 -> "0",
    1 -> "10", 2 -> "11" over the bytes 1, 2, 1, 0 pack to the one byte
    10111000.  Sixteen code bits (eight bytes 0 then eight bytes 1 under
    the codes 0 -> "0", 1 -> "1") pack to the single byte 0, the second
    group of eight bits being dropped, where the packing of section 4.5
    gives the two bytes 0 and 255. *)
Theorem generate_compressed_sixteen_bits :
  (generate_compressed [1; 2; 1; 0] codes_012 = Ok [184] /\
   byte_to_bits 184 = Ok "10111000"%string) /\
  generate_compressed (replicate 8 0 ++ replicate 8 1) codes_01 = Ok [0] /\
  packed_reference (replicate 8 0 ++ replicate 8 1) codes_01 = Ok [0; 255].
Proof. repeat split; vm_compute; reflexivity. Qed.

(** Ten code bits give a third, spurious byte, and seventeen an
    exception of [bits_to_byte]. *)
Example generate_compressed_other_lengths :
  generate_compressed (replicate 8 0 ++ replicate 2 1) codes_01
    = Ok [0; 192; 0] /\
  generate_compressed (replicate 8 0 ++ replicate 9 1) codes_01
    = Raise ValueError.
Proof. split; vm_compute; reflexivity. Qed.

(** * Numbering and serialisation *)

(** Whatever the tree, its root ends with the number 2. *)
Lemma number_nodes_root (tree : HuffmanNode) :
  number (number_nodes tree) = Some 2.
Proof. destruct tree. reflexivity. Qed.

(** C7 (defect). On the tree with one internal node over the leaves 3 and
    2, [number_nodes] gives the root the number 2 where postorder numbering
    gives 0, and numbers the two leaves 0 and 1 where leaves are to stay
    without number. *)
Theorem number_nodes_two_leaves :
  number_nodes (Internal (Leaf 3) (Leaf 2)) =
    MkNode None (Some (MkNode (Some 3) None None (Some 0)))
                (Some (MkNode (Some 2) None None (Some 1))) (Some 2) /\
  internal_numbers (number_nodes (Internal (Leaf 3) (Leaf 2))) = [Some 2] /\
  leaf_numbers (number_nodes (Internal (Leaf 3) (Leaf 2)))
    = [Some 0; Some 1] /\
  ~ postorder_numbered (number_nodes (Internal (Leaf 3) (Leaf 2))).
Proof.
  repeat split; try reflexivity.
  intros [H _]. vm_compute in H. discriminate.
Qed.

(** Two internal nodes of one tree can receive the same number. *)
Example number_nodes_repeats :
  internal_numbers
    (number_nodes (Internal (Leaf 1)
                            (Internal (Internal (Leaf 2) (Leaf 3)) (Leaf 4))))
  = [Some 1; Some 1; Some 2].
Proof. reflexivity. Qed.

(** C5 (defect). On the postorder-numbered tree whose root (number 1) has
    the leaf 5 on the left and the internal node number 0, over the leaves
    3 and 2, on the right, the count byte is 2 but the records that follow
    are (0,5,0,3) and (0,2,1,0); the two records of the format are
    (0,3,0,2) for node 0 and (0,5,1,0) for the root. *)
Theorem tree_to_bytes_right_heavy :
  postorder_numbered right_heavy /\
  serialized right_heavy = Ok [2; 0; 5; 0; 3; 0; 2; 1; 0] /\
  serialized_reference right_heavy = Ok [2; 0; 3; 0; 2; 0; 5; 1; 0].
Proof.
  repeat split; try reflexivity. vm_compute. repeat constructor.
Qed.

(** Numbered by [number_nodes], a tree with one internal node is
    announced with the count 3. *)
Example serialized_after_number_nodes :
  serialized (number_nodes (Internal (Leaf 3) (Leaf 2))) = Ok [3; 0; 3; 0; 2].
Proof. reflexivity. Qed.

(** C6 (defect). On the postorder-numbered tree whose root has the
    internal node over the leaves 3 and 2 on the left and the leaf 5 on the
    right, the code table is 3 -> "00", 2 -> "01", 5 -> "1"; after
    serialising and rebuilding with [generate_tree_general] the table is
    0 -> "00", 5 -> "1", and the tree rebuilt by [generate_tree_postorder]
    has no left child, so that [get_codes] raises on it. *)
Theorem tree_round_trip_left_heavy :
  postorder_numbered left_heavy /\
  get_codes left_heavy =
    Ok (<[Some 3 := "00"%string]>
          (<[Some 2 := "01"%string]> (<[Some 5 := "1"%string]> ∅))) /\
  codes_after_round_trip generate_tree_general left_heavy =
    Ok (<[Some 0 := "00"%string]> (<[Some 5 := "1"%string]> ∅)) /\
  codes_after_round_trip generate_tree_postorder left_heavy =
    Raise AttributeError.
Proof.
  repeat split; try (vm_compute; reflexivity). vm_compute. repeat constructor.
Qed.

(** * The optimiser *)

(** C9 (defect). On the tree and table of its doctest, [improve_tree]
    leaves the tree as it was, with average code length 249/100; the same
    shape with the same symbols placed by descending frequency has average
    code length 231/100, the value the doctest expects. *)
Theorem improve_tree_doctest :
  improve_tree improve_tree_doctest_tree improve_tree_doctest_freq =
    improve_tree_doctest_tree /\
  avg_length (improve_tree improve_tree_doctest_tree improve_tree_doctest_freq)
             improve_tree_doctest_freq = Ok (249 # 100)%Q /\
  same_shape improve_tree_doctest_tree improve_tree_better_tree = true /\
  leaf_symbols improve_tree_better_tree ≡ₚ
    leaf_symbols improve_tree_doctest_tree /\
  avg_length improve_tree_better_tree improve_tree_doctest_freq =
    Ok (231 # 100)%Q.
Proof.
  repeat split; try (vm_compute; reflexivity).
  apply (bool_decide_unpack _). vm_compute. exact I.
Qed.

(** * Further properties of the code *)

(** ** The byte helpers *)

Lemma testbit_one m : 0 <= m -> Z.testbit 1 m = (m =? 0).
Proof. destruct m as [|p|p]; [reflexivity| |lia]. destruct p; reflexivity. Qed.

Lemma shiftr_land_bit a n :
  0 <= n -> Z.shiftr (Z.land a (Z.shiftl 1 n)) n = Z.b2z (Z.testbit a n).
Proof.
  intros Hn. apply Z.bits_inj'. intros m Hm.
  rewrite Z.shiftr_spec, Z.land_spec, Z.shiftl_spec by lia.
  replace (m + n - n) with m by lia.
  rewrite (testbit_one m Hm).
  destruct (Z.eqb_spec m 0) as [->|Hne].
  - rewrite Z.add_0_l, andb_true_r. destruct (Z.testbit a n); reflexivity.
  - rewrite andb_false_r. destruct (Z.testbit a n); cbn [Z.b2z].
    + rewrite (testbit_one m Hm). symmetry. apply Z.eqb_neq, Hne.
    + symmetry. apply Z.testbit_0_l.
Qed.

(** X1. [get_bit(byte, bit_num)] is the bit of [byte] at position
    [bit_num], as 0 or 1, for every integer [byte] and every
    [bit_num >= 0]; a negative [bit_num] raises [ValueError] (negative
    shift count). *)
Theorem get_bit_testbit (byte bit_num : Z) :
  get_bit byte bit_num =
  if bit_num <? 0 then Raise ValueError
  else Ok (Z.b2z (Z.testbit byte bit_num)).
Proof.
  unfold get_bit, shl, shr. destruct (Z.ltb_spec bit_num 0) as [Hlt|Hge].
  - reflexivity.
  - cbn. destruct (Z.ltb_spec bit_num 0); [lia|].
    rewrite shiftr_land_bit by lia. reflexivity.
Qed.

Lemma byte_round_trip_nat (n : nat) : (n < 256)%nat ->
  exists s, byte_to_bits (Z.of_nat n) = Ok s /\ String.length s = 8%nat /\
    is_bits s = true /\ bits_to_byte s = Ok (Z.of_nat n).
Proof.
  intros Hn.
  assert (Hall : forallb (fun n =>
    match byte_to_bits (Z.of_nat n) with
    | Ok s =>
        (String.length s =? 8)%nat && is_bits s &&
        match bits_to_byte s with Ok v => v =? Z.of_nat n | _ => false end
    | Raise _ => false
    end) (seq 0 256) = true) by (vm_compute; reflexivity).
  rewrite forallb_forall in Hall. specialize (Hall n).
  rewrite <- list_elem_of_In, elem_of_seq in Hall.
  specialize (Hall ltac:(lia)).
  destruct (byte_to_bits (Z.of_nat n)) as [s|e]; [|discriminate].
  exists s. split; [reflexivity|].
  apply andb_prop in Hall as [Hall H3]. apply andb_prop in Hall as [H1 H2].
  destruct (bits_to_byte s) as [v|e]; [|discriminate].
  apply Nat.eqb_eq in H1. apply Z.eqb_eq in H3. subst v. auto.
Qed.

(** X2. For every byte value (0 to 255), [byte_to_bits] returns a string
    of exactly eight characters "0" or "1", and [bits_to_byte] of that
    string is the byte again. *)
Theorem byte_to_bits_round_trip (byte : Z) :
  0 <= byte < 256 ->
  exists bits, byte_to_bits byte = Ok bits /\
    String.length bits = 8%nat /\ is_bits bits = true /\
    bits_to_byte bits = Ok byte.
Proof.
  intros H. rewrite <- (Z2Nat.id byte) by lia.
  apply byte_round_trip_nat. lia.
Qed.

Lemma byte_to_bits_round_trip_witness :
  exists bits, byte_to_bits 14 = Ok bits /\
    String.length bits = 8%nat /\ is_bits bits = true /\
    bits_to_byte bits = Ok 14.
Proof. apply (byte_to_bits_round_trip 14). lia. Defined.

Lemma bits_char c :
  Ascii.eqb c "0" || Ascii.eqb c "1" = true -> c = "0"%char \/ c = "1"%char.
Proof.
  intros H. apply orb_prop in H as [H|H]; apply Ascii.eqb_eq in H; auto.
Qed.

(** X3. For every string of eight characters "0" or "1", [bits_to_byte]
    returns a byte whose [byte_to_bits] is that string. *)
Theorem bits_to_byte_round_trip (bits : string) :
  String.length bits = 8%nat -> is_bits bits = true ->
  exists byte, bits_to_byte bits = Ok byte /\ byte_to_bits byte = Ok bits.
Proof.
  intros Hlen Hb.
  do 8 (destruct bits as [|? bits]; [discriminate|]).
  destruct bits; [|discriminate]. clear Hlen. cbn [is_bits] in Hb.
  repeat (apply andb_prop in Hb as [?%bits_char Hb]).
  repeat match goal with H : _ \/ _ |- _ => destruct H as [-> | ->] end;
    (eexists; split; vm_compute; reflexivity).
Qed.

Lemma bits_to_byte_round_trip_witness :
  exists byte, bits_to_byte "00001110" = Ok byte /\
    byte_to_bits byte = Ok "00001110"%string.
Proof.
  apply (bits_to_byte_round_trip "00001110"); reflexivity.
Defined.

Lemma bits_to_byte_from_overlong s : forall pos,
  0 <= pos <= 8 -> 8 < pos + Z.of_nat (String.length s) ->
  bits_to_byte_from pos s = Raise ValueError.
Proof.
  induction s as [|c rest IH]; intros pos Hpos Hlen;
    cbn [String.length] in Hlen.
  - lia.
  - cbn [bits_to_byte_from]. unfold int_of_char, shl.
    destruct (_ && _); [|reflexivity]. cbn.
    destruct (Z.ltb_spec (7 - pos) 0) as [Hneg|Hok]; [reflexivity|]. cbn.
    rewrite IH by lia. reflexivity.
Qed.

Lemma bits_to_byte_too_long (bits : string) :
  (8 < String.length bits)%nat -> bits_to_byte bits = Raise ValueError.
Proof. intros H. apply bits_to_byte_from_overlong; lia. Qed.

(** X4. On every string of more than eight characters, whatever they
    are, [bits_to_byte] raises [ValueError]: the ninth character asks for a
    shift by a negative count, unless [int] has already refused an earlier
    character. *)
Theorem bits_to_byte_overlong (bits : string) :
  (8 < String.length bits)%nat -> bits_to_byte bits = Raise ValueError.
Proof. exact (bits_to_byte_too_long bits). Qed.

Lemma bits_to_byte_overlong_witness :
  bits_to_byte "000000000" = Raise ValueError.
Proof. apply (bits_to_byte_overlong "000000000"). simpl. lia. Defined.

Lemma bits_to_byte_from_raises s : forall pos e,
  bits_to_byte_from pos s = Raise e -> e = ValueError.
Proof.
  induction s as [|c rest IH]; intros pos e; cbn [bits_to_byte_from];
    [discriminate|].
  unfold int_of_char, shl, mbind, result_bind, bind.
  destruct (_ && _); [|congruence].
  destruct (_ <? _); [congruence|].
  destruct (bits_to_byte_from (pos + 1) rest) eqn:E; [discriminate|].
  intros H. injection H as <-. eapply IH, E.
Qed.

Lemma bits_to_byte_raises s e : bits_to_byte s = Raise e -> e = ValueError.
Proof. apply bits_to_byte_from_raises. Qed.

Lemma bits_to_byte_from_range s : forall pos,
  is_bits s = true -> 0 <= pos -> pos + Z.of_nat (String.length s) <= 8 ->
  exists v, bits_to_byte_from pos s = Ok v /\ 0 <= v < 2 ^ (8 - pos).
Proof.
  induction s as [|c rest IH]; intros pos Hb Hpos Hlen;
    cbn [String.length is_bits] in *.
  - exists 0. split; [reflexivity|]. split; [lia|].
    apply Z.pow_pos_nonneg; lia.
  - apply andb_prop in Hb as [Hc Hrest].
    destruct (IH (pos + 1) Hrest ltac:(lia) ltac:(lia)) as (v & Hv & Hr).
    cbn [bits_to_byte_from]. rewrite Hv.
    replace (8 - (pos + 1)) with (7 - pos) in Hr by lia.
    assert (Hpow : 2 ^ (8 - pos) = 2 * 2 ^ (7 - pos)).
    { replace (8 - pos) with (Z.succ (7 - pos)) by lia.
      apply Z.pow_succ_r. lia. }
    unfold shl. destruct (Z.ltb_spec (7 - pos) 0) as [?|_]; [lia|].
    apply bits_char in Hc as [-> | ->].
    + exists v. change (int_of_char "0") with (Ok 0).
      unfold mbind, result_bind, bind. rewrite Z.shiftl_0_l.
      split; [reflexivity|lia].
    + exists (2 ^ (7 - pos) + v). change (int_of_char "1") with (Ok 1).
      unfold mbind, result_bind, bind.
      rewrite Z.shiftl_1_l. split; [reflexivity|lia].
Qed.

(** X5. On every string of at most eight characters "0" or "1",
    [bits_to_byte] returns a value that fits a byte. *)
Theorem bits_to_byte_range (bits : string) :
  is_bits bits = true -> (String.length bits <= 8)%nat ->
  exists v, bits_to_byte bits = Ok v /\ 0 <= v < 256.
Proof.
  intros Hb Hlen.
  destruct (bits_to_byte_from_range bits 0 Hb ltac:(lia) ltac:(lia))
    as (v & Hv & Hr).
  exists v. split; [exact Hv|exact Hr].
Qed.

Lemma bits_to_byte_range_witness :
  exists v, bits_to_byte "101" = Ok v /\ 0 <= v < 256.
Proof.
  apply (bits_to_byte_range "101"); [reflexivity|simpl; lia].
Defined.

Lemma str_app_nil (s : string) : (EmptyString +:+ s)%string = s.
Proof. reflexivity. Qed.

Lemma str_app_cons c (s t : string) :
  (String c s +:+ t)%string = String c (s +:+ t).
Proof. reflexivity. Qed.

(** A shorter string stands for the byte it gives once padded with
    zeros on the right. *)
Lemma bits_to_byte_from_pad s : forall pos,
  0 <= pos -> pos + Z.of_nat (String.length s) < 8 ->
  bits_to_byte_from pos (s +:+ "0") = bits_to_byte_from pos s.
Proof.
  induction s as [|c rest IH]; intros pos Hpos Hlen;
    cbn [String.length] in Hlen.
  - rewrite str_app_nil. cbn [bits_to_byte_from].
    change (int_of_char "0") with (Ok 0).
    unfold mbind, result_bind, bind, shl.
    destruct (Z.ltb_spec (7 - pos) 0); [lia|].
    rewrite Z.shiftl_0_l. reflexivity.
  - rewrite str_app_cons. cbn [bits_to_byte_from].
    rewrite IH by lia. reflexivity.
Qed.

Lemma bits_to_byte_pad_right (bits : string) :
  (String.length bits < 8)%nat ->
  bits_to_byte (bits +:+ "0") = bits_to_byte bits.
Proof. intros H. apply bits_to_byte_from_pad; lia. Qed.

(** ** The frequency analyser and the tree builder *)

Lemma dict_get_set {V} (d : dict V) k v k' :
  dict_get (dict_set d k v) k' = if k =? k' then Ok v else dict_get d k'.
Proof.
  induction d as [|[k0 v0] d IH]; cbn [dict_set dict_get].
  - reflexivity.
  - destruct (Z.eqb_spec k0 k) as [->|Hne]; cbn [dict_get].
    + destruct (Z.eqb_spec k k'); reflexivity.
    + rewrite IH. destruct (Z.eqb_spec k0 k') as [->|?]; [|reflexivity].
      destruct (Z.eqb_spec k k'); [congruence|reflexivity].
Qed.

Lemma dict_get_missing {V} (d : dict V) k :
  k ∉ dict_keys d -> dict_get d k = Raise KeyError.
Proof.
  induction d as [|[k0 v0] d IH]; cbn [dict_get dict_keys map fst];
    intros Hk; [reflexivity|].
  destruct (Z.eqb_spec k0 k) as [->|Hne].
  - exfalso. apply Hk. left.
  - apply IH. intros Hin. apply Hk. right. exact Hin.
Qed.

Lemma make_freq_dict_from (text : list Z) : forall d0 : dict Z,
  exists d,
    for_each
      (fun dic char =>
         if negb (dict_contains dic char) then Ok (dict_set dic char 1)
         else c ← dict_get dic char; Ok (dict_set dic char (c + 1)))
      text d0 = Ok d /\
    forall k, freq_of d k =
              freq_of d0 k + Z.of_nat (count_occ Z.eq_dec text k).
Proof.
  induction text as [|x text IH]; intros d0; cbn [for_each count_occ].
  - exists d0. split; [reflexivity|]. intros k. lia.
  - destruct (dict_contains d0 x) eqn:Ex; cbn [negb].
    + assert (Hx : x ∈ dict_keys d0) by (apply dict_contains_keys, Ex).
      rewrite (dict_get_freq_of d0 x Hx).
      unfold mbind, result_bind, bind.
      destruct (IH (dict_set d0 x (freq_of d0 x + 1))) as (d & Hd & Hc).
      exists d. split; [exact Hd|]. intros k. rewrite Hc.
      unfold freq_of at 1. rewrite dict_get_set.
      destruct (Z.eq_dec x k) as [->|Hne].
      * rewrite Z.eqb_refl. lia.
      * destruct (Z.eqb_spec x k); [congruence|]. fold (freq_of d0 k). lia.
    + unfold bind.
      destruct (IH (dict_set d0 x 1)) as (d & Hd & Hc).
      exists d. split; [exact Hd|]. intros k. rewrite Hc.
      unfold freq_of at 1. rewrite dict_get_set.
      destruct (Z.eq_dec x k) as [->|Hne].
      * rewrite Z.eqb_refl.
        assert (Hk : k ∉ dict_keys d0).
        { intros Hin. apply dict_contains_keys in Hin. congruence. }
        unfold freq_of. rewrite (dict_get_missing d0 k Hk). lia.
      * destruct (Z.eqb_spec x k); [congruence|]. fold (freq_of d0 k). lia.
Qed.

(** X6. [make_freq_dict] never fails; in its table every byte of the text
    is a key, once, mapped to the number of its occurrences in the text,
    and looking up a byte that is not in the text is a [KeyError]. *)
Theorem make_freq_dict_counts (text : list Z) :
  exists d, make_freq_dict text = Ok d /\
    NoDup (dict_keys d) /\
    (forall k, k ∈ text ->
       dict_get d k = Ok (Z.of_nat (count_occ Z.eq_dec text k))) /\
    (forall k, k ∉ text -> dict_get d k = Raise KeyError).
Proof.
  destruct (make_freq_dict_keys text) as (d & Hd & Hnd & Hk).
  exists d. split; [exact Hd|]. split; [exact Hnd|].
  destruct (make_freq_dict_from text []) as (d' & Hd' & Hc).
  unfold make_freq_dict in Hd. rewrite Hd in Hd'. injection Hd' as <-.
  split.
  - intros k Hin. rewrite dict_get_freq_of by (apply Hk, Hin).
    rewrite Hc. reflexivity.
  - intros k Hin. apply dict_get_missing. rewrite Hk. exact Hin.
Qed.

Lemma for_each_Ok {A S} (body : S -> A -> result S) x l s s' :
  body s x = Ok s' -> for_each body (x :: l) s = for_each body l s'.
Proof. intros H. cbn [for_each]. rewrite H. reflexivity. Qed.

Lemma for_each_Raise {A S} (body : S -> A -> result S) x l s e :
  body s x = Raise e -> for_each body (x :: l) s = Raise e.
Proof. intros H. cbn [for_each]. rewrite H. reflexivity. Qed.

Lemma for_each_scan_missing (d : dict Z) l : forall cur,
  ((cur ∉ dict_keys d) /\ l <> []) \/
  (exists y, y ∈ l /\ (y ∉ dict_keys d)) ->
  for_each (fun current_key key =>
              fk ← dict_get d key;
              fc ← dict_get d current_key;
              Ok (if fk >? fc then key else current_key)) l cur
  = Raise KeyError.
Proof.
  induction l as [|x l IH]; intros cur H.
  - destruct H as [[_ H]|(y & Hy & _)]; [congruence|inversion Hy].
  - cbn [for_each].
    destruct (decide (x ∈ dict_keys d)) as [Hx|Hx];
      [|rewrite (dict_get_missing d x Hx); reflexivity].
    rewrite (dict_get_freq_of d x Hx).
    destruct (decide (cur ∈ dict_keys d)) as [Hc|Hc];
      [|rewrite (dict_get_missing d cur Hc); reflexivity].
    rewrite (dict_get_freq_of d cur Hc). unfold mbind, result_bind, bind.
    apply IH. right. destruct H as [[H _]|(y & Hy & Hm)]; [contradiction|].
    exists y. split; [|exact Hm].
    inversion Hy; subst; [contradiction|assumption].
Qed.

(** X7. On a non-empty key list, [find_biggest_key] returns the first key
    whose count is the largest (every key before it has a smaller count,
    every key after it a count not larger) when all the keys are in the
    table, and raises [KeyError] when one of them is not. *)
Theorem find_biggest_key_first_maximum
    (freq_dict : dict Z) (keylist : list Z) :
  keylist <> [] ->
  (keylist ⊆ dict_keys freq_dict ->
   exists k before after,
     find_biggest_key freq_dict keylist = Ok (Some k) /\
     keylist = before ++ k :: after /\
     (forall y, y ∈ before -> freq_of freq_dict y < freq_of freq_dict k) /\
     (forall y, y ∈ after -> freq_of freq_dict y <= freq_of freq_dict k)) /\
  (¬ (keylist ⊆ dict_keys freq_dict) ->
   find_biggest_key freq_dict keylist = Raise KeyError).
Proof.
  intros Hne. split.
  - intros Hsub.
    destruct (find_biggest_key_spec freq_dict keylist Hne Hsub)
      as (k & l1 & l2 & Hf & Hs & H1 & H2).
    exists k, l1, l2. rewrite Forall_forall in H1, H2. auto.
  - intros Hsub. destruct keylist as [|k0 rest]; [congruence|].
    unfold find_biggest_key. rewrite for_each_scan_missing; [reflexivity|].
    right.
    assert (HnF : ¬ Forall (fun y => y ∈ dict_keys freq_dict) (k0 :: rest)).
    { intros HF. apply Hsub. intros y Hy.
      rewrite Forall_forall in HF. exact (HF y Hy). }
    apply not_Forall_Exists in HnF; [|exact _].
    apply Exists_exists in HnF. exact HnF.
Qed.

Lemma find_biggest_key_first_maximum_witness :
  (([2; 3] : list Z) ⊆ dict_keys [(2, 6); (3, 4)] ->
   exists k before after,
     find_biggest_key [(2, 6); (3, 4)] [2; 3] = Ok (Some k) /\
     [2; 3] = before ++ k :: after /\
     (forall y, y ∈ before ->
        freq_of [(2, 6); (3, 4)] y < freq_of [(2, 6); (3, 4)] k) /\
     (forall y, y ∈ after ->
        freq_of [(2, 6); (3, 4)] y <= freq_of [(2, 6); (3, 4)] k)) /\
  (¬ (([2; 3] : list Z) ⊆ dict_keys [(2, 6); (3, 4)]) ->
   find_biggest_key [(2, 6); (3, 4)] [2; 3] = Raise KeyError).
Proof.
  apply (find_biggest_key_first_maximum [(2, 6); (3, 4)] [2; 3]).
  discriminate.
Defined.

Lemma well_formed_internal_count t :
  well_formed t ->
  S (length (internal_numbers t)) = length (leaf_symbols t).
Proof.
  induction 1 as [s k|sym l r k _ IHl _ IHr]; [reflexivity|].
  cbn [internal_numbers leaf_symbols]. rewrite !length_app. cbn [length].
  lia.
Qed.

(** X8. For every non-empty table, the tree [huffman_tree] returns is well
    formed, carries each symbol of the table at exactly one leaf and no
    other symbol, and has one internal node less than the table has
    symbols. *)
Theorem huffman_tree_leaves (freq_dict : dict Z) :
  freq_dict <> [] -> NoDup (dict_keys freq_dict) ->
  exists root, huffman_tree freq_dict = Ok root /\
    well_formed root /\
    leaf_symbols root ≡ₚ dict_keys freq_dict /\
    S (length (internal_numbers root)) = length freq_dict.
Proof.
  intros Hne Hnd.
  destruct (huffman_tree_runs freq_dict Hne Hnd)
    as (ks & root & [Hperm _] & Hp & Hr).
  destruct (merge_policy_well_formed _ _ Hp) as (Hwf & Hleaves & _).
  { apply Forall_fmap, Forall_forall. intros k _. constructor. }
  rewrite leaf_symbols_leaves, Hperm in Hleaves.
  exists root. split; [exact Hr|]. split; [exact Hwf|].
  split; [exact Hleaves|].
  rewrite (well_formed_internal_count root Hwf), Hleaves.
  unfold dict_keys. apply length_map.
Qed.

Lemma huffman_tree_leaves_witness :
  exists root, huffman_tree [(2, 6); (3, 4)] = Ok root /\
    well_formed root /\
    leaf_symbols root ≡ₚ dict_keys [(2, 6); (3, 4)] /\
    S (length (internal_numbers root)) = length [(2, 6); (3, 4)].
Proof.
  apply (huffman_tree_leaves [(2, 6); (3, 4)]).
  - discriminate.
  - apply (bool_decide_unpack _). vm_compute. exact I.
Defined.

Lemma height_Internal a b :
  height (Internal a b) = S (Nat.max (height a) (height b)).
Proof. reflexivity. Qed.

(** A round of the merge loop keeps the queue in levels. *)
Lemma level_queue_step n q q' :
  level_queue n q -> merge_step q q' -> level_queue n q'.
Proof.
  intros (h & A & B & Hq & HA & HB & Hlo & Hhi & Hinit) Hstep.
  destruct Hstep as [q0 n2 n1].
  assert (Hp : (2 ^ S h = 2 * 2 ^ h)%nat) by (cbn; lia).
  assert (Hpos : (0 < 2 ^ h)%nat)
    by (apply Nat.neq_0_lt_0, Nat.pow_nonzero; lia).
  destruct (snoc_case B) as [->|(B1 & b1 & ->)].
  - (* the current level is used up: both nodes come from the next one *)
    rewrite app_nil_r in Hq. subst A.
    rewrite !Forall_app, Forall_cons, Forall_singleton in HA.
    destruct HA as (HA & H2 & H1).
    exists (S h), [Internal n1 n2], q0.
    split; [reflexivity|]. split; [|split; [exact HA|]].
    { apply Forall_singleton. rewrite height_Internal, H1, H2. lia. }
    rewrite length_app in *. cbn [length] in *. rewrite Hp.
    split; [nia|]. split; [nia|discriminate].
  - destruct (snoc_case B1) as [->|(B2 & b2 & ->)].
    + (* one node of the current level is left *)
      cbn [app] in *.
      assert (E : (q0 ++ [n2]) ++ [n1] = A ++ [b1])
        by (rewrite <- app_assoc; exact Hq).
      apply app_inj_tail in E as [E <-]. subst A.
      rewrite Forall_app, Forall_singleton in HA. destruct HA as (HA & H2).
      rewrite Forall_singleton in HB.
      exists (S h), [Internal n1 n2], q0.
      split; [reflexivity|]. split; [|split; [exact HA|]].
      { apply Forall_singleton. rewrite height_Internal, HB, H2. lia. }
      rewrite length_app in *. cbn [length] in *. rewrite Hp.
      split; [nia|]. split; [nia|discriminate].
    + (* two nodes of the current level *)
      assert (E : (q0 ++ [n2]) ++ [n1] = ((A ++ B2) ++ [b2]) ++ [b1]).
      { rewrite <- !app_assoc. rewrite <- !app_assoc in Hq. exact Hq. }
      apply app_inj_tail in E as [E <-]. apply app_inj_tail in E as [-> <-].
      rewrite !Forall_app, !Forall_singleton in HB.
      destruct HB as ((HB & H2) & H1).
      exists h, (Internal n1 n2 :: A), B2.
      split; [reflexivity|]. split; [|split; [exact HB|]].
      { constructor; [|exact HA]. rewrite height_Internal, H1, H2. lia. }
      rewrite !length_app in *. cbn [length] in *.
      split; [nia|]. split; [nia|discriminate].
Qed.

Lemma level_queue_root n q root :
  merge_policy q root -> level_queue n q ->
  (n <= 2 ^ height root)%nat /\ (2 <= n -> 2 ^ height root < 2 * n)%nat.
Proof.
  unfold merge_policy. intros H. remember [root] as z eqn:Ez. revert root Ez.
  induction H as [x|x y z Hxy Hyz IH]; intros root -> Hinv.
  - destruct Hinv as (h & A & B & Hq & HA & HB & Hlo & Hhi & Hinit).
    destruct A as [|a A].
    + cbn [app] in Hq. subst B. rewrite Forall_singleton in HB.
      rewrite HB. specialize (Hinit eq_refl). cbn [length] in *.
      split; [|lia]. rewrite <- Hinit.
      apply Nat.neq_0_lt_0, Nat.pow_nonzero. lia.
    + destruct A; [|destruct A; discriminate]. destruct B; [|discriminate].
      injection Hq as <-. rewrite Forall_singleton in HA. rewrite HA.
      cbn [length] in *. cbn [Nat.pow]. split; lia.
  - apply IH; [reflexivity|]. exact (level_queue_step _ _ _ Hinv Hxy).
Qed.

Lemma level_queue_leaves ks : level_queue (length ks) (Leaf <$> ks).
Proof.
  exists O, [], (Leaf <$> ks). split; [reflexivity|].
  split; [constructor|]. split.
  - apply Forall_fmap, Forall_forall. intros k _. reflexivity.
  - rewrite length_fmap. cbn. split; [lia|]. split; [lia|reflexivity].
Qed.

Lemma path_to_height t p s :
  path_to t p s -> (String.length p <= height t)%nat.
Proof.
  induction 1 as [s k|sym l r k p s _ IH|sym l r k p s _ IH];
    cbn [String.length height]; [lia| |].
  - destruct r; lia.
  - destruct l; lia.
Qed.



(** X10. For every table of [n >= 2] symbols, every code of the table
    built by [huffman_tree] and [get_codes] has at least one bit and fewer
    than [log2 n + 1] bits ([2 ^ length < 2 * n]); with byte symbols no code
    is longer than eight bits. *)
Theorem huffman_tree_code_length (freq_dict : dict Z) :
  NoDup (dict_keys freq_dict) -> (2 <= length freq_dict)%nat ->
  exists root codes,
    huffman_tree freq_dict = Ok root /\ get_codes root = Ok codes /\
    forall s code, codes !! Some s = Some code ->
      (1 <= String.length code)%nat /\
      (2 ^ String.length code < 2 * length freq_dict)%nat.
Proof.
  intros Hnd Hlen.
  destruct (huffman_tree_runs freq_dict) as (ks & root & [Hperm _] & Hp & Hr);
    [destruct freq_dict; [simpl in Hlen; lia|discriminate]|exact Hnd|].
  destruct (merge_policy_well_formed _ _ Hp) as (Hwf & Hleaves & Hint).
  { apply Forall_fmap, Forall_forall. intros k _. constructor. }
  rewrite leaf_symbols_leaves, Hperm in Hleaves.
  assert (Hks : length ks = length freq_dict).
  { rewrite Hperm. unfold dict_keys. apply length_map. }
  assert (Hroot : is_leaf root = false).
  { apply Hint. rewrite length_fmap. lia. }
  destruct (child_codes_spec root Hwf) as [_ Hcodes];
    [rewrite Hleaves; exact Hnd|].
  destruct (Hcodes Hroot) as (codes & Hc & Gc & _).
  destruct (level_queue_root _ _ _ Hp (level_queue_leaves ks)) as [_ Hhi].
  exists root, codes. split; [exact Hr|]. split; [exact Hc|].
  intros s code Hs. apply Gc in Hs as (s' & p & _ & -> & Hpath). unfold id.
  split.
  - inversion Hpath; subst; cbn [String.length]; [discriminate|lia..].
  - apply Nat.le_lt_trans with (2 ^ height root)%nat.
    + apply Nat.pow_le_mono_r; [lia|]. exact (path_to_height _ _ _ Hpath).
    + rewrite <- Hks. apply Hhi. lia.
Qed.

Lemma huffman_tree_code_length_witness :
  exists root codes,
    huffman_tree [(2, 6); (3, 4)] = Ok root /\ get_codes root = Ok codes /\
    forall s code, codes !! Some s = Some code ->
      (1 <= String.length code)%nat /\
      (2 ^ String.length code < 2 * length [(2, 6); (3, 4)])%nat.
Proof.
  apply (huffman_tree_code_length [(2, 6); (3, 4)]).
  - apply (bool_decide_unpack _). vm_compute. exact I.
  - simpl. lia.
Defined.

(** X11. For a table of two different symbols, the root has the less
    frequent symbol on the left (code "0") and the more frequent on the
    right (code "1"); with equal counts the first symbol of the table is
    on the right. *)
Theorem huffman_tree_two_symbols (a b fa fb : Z) :
  a <> b ->
  huffman_tree [(a, fa); (b, fb)] =
  Ok (if fb >? fa then Internal (Leaf a) (Leaf b)
      else Internal (Leaf b) (Leaf a)).
Proof.
  intros Hab. unfold huffman_tree, find_biggest_key.
  assert (Hfa : (fa >? fa) = false)
    by (rewrite Z.gtb_ltb; apply Z.ltb_irrefl).
  assert (Hfb : (fb >? fb) = false)
    by (rewrite Z.gtb_ltb; apply Z.ltb_irrefl).
  assert (Eab : (a =? b) = false) by (apply Z.eqb_neq; exact Hab).
  assert (Eba : (b =? a) = false) by (apply Z.eqb_neq; congruence).
  destruct (fb >? fa) eqn:E;
    repeat first
      [ rewrite Z.eqb_refl | rewrite Hfa | rewrite Hfb | rewrite E
      | rewrite Eab | rewrite Eba
      | progress cbn -[Z.eqb Z.gtb]
      | progress cbn [mbind result_bind bind] ];
    reflexivity.
Qed.

Lemma huffman_tree_two_symbols_witness :
  huffman_tree [(2, 6); (3, 4)] =
  Ok (if 4 >? 6 then Internal (Leaf 2) (Leaf 3)
      else Internal (Leaf 3) (Leaf 2)).
Proof. apply (huffman_tree_two_symbols 2 3 6 4). lia. Defined.

(** ** The code table and the average length *)

Lemma avg_length_loop (tree : HuffmanNode) (freq_dict : dict Z)
    (codes : gmap (option Z) string) (H : Z) :
  get_codes tree = Ok codes ->
  forall keys l d,
  (forall k, k ∈ keys ->
     k ∈ dict_keys freq_dict /\ 0 < freq_of freq_dict k /\
     exists code, codes !! Some k = Some code /\
       1 <= Z.of_nat (String.length code) <= H) ->
  exists l' d',
    for_each (fun '(l, divisor) key =>
                codes ← get_codes tree;
                code ← match codes !! Some key with
                       | Some c => Ok c
                       | None => Raise KeyError
                       end;
                f ← dict_get freq_dict key;
                Ok (l + Z.of_nat (String.length code) * f, divisor + f))
             keys (l, d) = Ok (l', d') /\
    d' - d <= l' - l <= H * (d' - d) /\ d <= d' /\ (keys <> [] -> d < d').
Proof.
  intros Hcodes keys. induction keys as [|k keys IH]; intros l d Hall.
  - exists l, d. split; [reflexivity|]. split; [lia|]. split; [lia|congruence].
  - destruct (Hall k ltac:(left)) as (Hk & Hpos & code & Hcode & Hlen).
    rewrite (for_each_Ok _ k keys (l, d)
               (l + Z.of_nat (String.length code) * freq_of freq_dict k,
                d + freq_of freq_dict k)).
    2:{ cbv beta iota. rewrite Hcodes. cbn [mbind result_bind bind].
        rewrite Hcode, (dict_get_freq_of freq_dict k Hk). reflexivity. }
    destruct (IH (l + Z.of_nat (String.length code) * freq_of freq_dict k)
                 (d + freq_of freq_dict k)) as (l' & d' & Hloop & Hb & Hd & _).
    { intros k' Hk'. apply Hall. right. exact Hk'. }
    exists l', d'. split; [exact Hloop|]. split; [nia|]. split; [lia|].
    intros _. lia.
Qed.

(** X12. For every table of two or more symbols with positive counts,
    [avg_length] of the tree built by [huffman_tree] succeeds, and the
    average is at least 1 bit and at most the height of the tree, which is
    below [log2 n + 1].  The quotient is the exact one, which Python rounds
    to a float. *)
Theorem avg_length_bounds (freq_dict : dict Z) :
  NoDup (dict_keys freq_dict) -> (2 <= length freq_dict)%nat ->
  (forall k, k ∈ dict_keys freq_dict -> 0 < freq_of freq_dict k) ->
  exists root q,
    huffman_tree freq_dict = Ok root /\ avg_length root freq_dict = Ok q /\
    (1 <= q)%Q /\ (q <= inject_Z (Z.of_nat (height root)))%Q /\
    (2 ^ height root < 2 * length freq_dict)%nat.
Proof.
  intros Hnd Hlen Hpos.
  destruct (huffman_tree_runs freq_dict) as (ks & root & [Hperm _] & Hp & Hr);
    [destruct freq_dict; [simpl in Hlen; lia|discriminate]|exact Hnd|].
  destruct (merge_policy_well_formed _ _ Hp) as (Hwf & Hleaves & Hint).
  { apply Forall_fmap, Forall_forall. intros k _. constructor. }
  rewrite leaf_symbols_leaves, Hperm in Hleaves.
  assert (Hks : length ks = length freq_dict).
  { rewrite Hperm. unfold dict_keys. apply length_map. }
  assert (Hroot : is_leaf root = false).
  { apply Hint. rewrite length_fmap. lia. }
  destruct (child_codes_spec root Hwf) as [_ Hcodes];
    [rewrite Hleaves; exact Hnd|].
  destruct (Hcodes Hroot) as (codes & Hc & Gc & _).
  destruct (level_queue_root _ _ _ Hp (level_queue_leaves ks)) as [_ Hhi].
  destruct (avg_length_loop root freq_dict codes (Z.of_nat (height root)) Hc
              (dict_keys freq_dict) 0 0) as (l & d & Hloop & Hb & _ & Hd).
  { intros k Hk. split; [exact Hk|]. split; [apply Hpos, Hk|].
    rewrite <- Hleaves in Hk.
    destruct (leaf_symbols_path_to root k Hwf Hk) as [p Hpath].
    exists p. split.
    - apply Gc. exists k, p. repeat split. exact Hpath.
    - pose proof (path_to_height _ _ _ Hpath).
      split; [|lia].
      inversion Hpath; subst; cbn [String.length]; [discriminate|lia..]. }
  assert (Hdpos : 0 < d).
  { apply Hd. destruct freq_dict; [simpl in Hlen; lia|discriminate]. }
  exists root, (Qred (inject_Z l / inject_Z d)).
  split; [exact Hr|]. split.
  - unfold avg_length. rewrite Hloop. cbn [mbind result_bind bind].
    destruct (Z.eqb_spec d 0); [lia|reflexivity].
  - assert (HdQ : (0 < inject_Z d)%Q).
    { change 0%Q with (inject_Z 0). rewrite <- Zlt_Qlt. exact Hdpos. }
    split; [|split].
    + rewrite Qred_correct. apply Qle_shift_div_l; [exact HdQ|].
      rewrite Qmult_1_l, <- Zle_Qle. lia.
    + rewrite Qred_correct. apply Qle_shift_div_r; [exact HdQ|].
      rewrite <- inject_Z_mult, <- Zle_Qle. lia.
    + rewrite <- Hks. apply Hhi. lia.
Qed.

Lemma avg_length_bounds_witness :
  exists root q,
    huffman_tree [(2, 6); (3, 4)] = Ok root /\
    avg_length root [(2, 6); (3, 4)] = Ok q /\
    (1 <= q)%Q /\ (q <= inject_Z (Z.of_nat (height root)))%Q /\
    (2 ^ height root < 2 * length [(2, 6); (3, 4)])%nat.
Proof.
  apply (avg_length_bounds [(2, 6); (3, 4)]).
  - apply (bool_decide_unpack _). vm_compute. exact I.
  - simpl. lia.
  - intros k Hk. apply list_elem_of_In in Hk. simpl in Hk.
    destruct Hk as [<-|[<-|[]]]; reflexivity.
Defined.

Lemma child_codes_covers t : well_formed t ->
  (forall bit, exists m, child_codes bit t = Ok m /\
     covers_leaves m (String bit) t) /\
  (is_leaf t = false -> exists codes, get_codes t = Ok codes /\
     covers_leaves codes id t).
Proof.
  induction 1 as [s k|sym l r k Hl IHl Hr IHr].
  - split; [|discriminate]. intros bit. eexists. split; [reflexivity|].
    cbn [symbol]. split.
    + intros key code Hk. apply lookup_singleton_Some in Hk as [<- <-].
      exists s, EmptyString. repeat split. constructor.
    + intros s' Hs. apply list_elem_of_singleton in Hs as ->.
      rewrite lookup_singleton_eq. eauto.
  - destruct IHl as [IHl _]. destruct IHr as [IHr _].
    destruct (IHl "0"%char) as (ml & Hml & Sl & Cl).
    destruct (IHr "1"%char) as (mr & Hmr & Sr & Cr).
    assert (Hroot : exists codes,
      get_codes (MkNode sym (Some l) (Some r) k) = Ok codes /\
      covers_leaves codes id (MkNode sym (Some l) (Some r) k)).
    { exists (mr ∪ ml). rewrite get_codes_internal. run Hml. run Hmr.
      split; [reflexivity|]. split.
      - intros key code Hk. unfold id.
        apply lookup_union_Some_raw in Hk as [Hk|[_ Hk]].
        + apply Sr in Hk as (s & p & -> & -> & Hp).
          exists s. eexists. repeat split. apply path_right, Hp.
        + apply Sl in Hk as (s & p & -> & -> & Hp).
          exists s. eexists. repeat split. apply path_left, Hp.
      - intros s Hs. rewrite leaf_symbols_internal in Hs.
        rewrite lookup_union_is_Some.
        apply elem_of_app in Hs as [Hs|Hs]; [right; apply Cl|left; apply Cr];
          exact Hs. }
    split; [|intros _; exact Hroot].
    intros bit. destruct Hroot as (codes & Hc & Sc & Cc).
    exists (String bit <$> codes). unfold child_codes.
    change (is_leaf (MkNode sym (Some l) (Some r) k)) with false. cbv iota.
    run Hc. split; [reflexivity|]. split.
    + intros key code Hk. rewrite lookup_fmap, fmap_Some in Hk.
      destruct Hk as (c0 & Hc0 & ->).
      apply Sc in Hc0 as (s & p & -> & -> & Hp).
      exists s, p. repeat split. exact Hp.
    + intros s Hs. rewrite lookup_fmap, fmap_is_Some. apply Cc, Hs.
Qed.

(** X13. For every well-formed tree with an internal root, also when a
    symbol sits at several leaves, [get_codes] succeeds; the keys of the
    table are exactly the leaf symbols, the code of a symbol is the
    root-to-leaf path of a leaf carrying it, and the table is
    prefix-free. *)
Theorem get_codes_any_symbols (tree : HuffmanNode) :
  well_formed tree -> is_leaf tree = false ->
  exists codes, get_codes tree = Ok codes /\
    (forall s, is_Some (codes !! Some s) <-> s ∈ leaf_symbols tree) /\
    (forall s p, codes !! Some s = Some p -> path_to tree p s) /\
    codes !! None = None /\
    prefix_free codes.
Proof.
  intros Hwf Hint.
  destruct (child_codes_covers tree Hwf) as [_ Hroot].
  destruct (Hroot Hint) as (codes & Hc & Sc & Cc).
  exists codes. split; [exact Hc|]. split; [|split; [|split]].
  - intros s. split; [|apply Cc].
    intros [p Hp]. apply Sc in Hp as (s' & p' & E & _ & Hpath).
    injection E as <-. eapply path_to_leaf_symbols, Hpath.
  - intros s p Hp. apply Sc in Hp as (s' & p' & E & -> & Hpath).
    injection E as <-. exact Hpath.
  - destruct (codes !! None) as [c|] eqn:E; [|reflexivity].
    apply Sc in E as (s & p & E & _). discriminate.
  - intros s1 s2 c1 c2 Hne H1 H2.
    apply Sc in H1 as (a1 & p1 & -> & -> & Hp1).
    apply Sc in H2 as (a2 & p2 & -> & -> & Hp2). unfold id.
    assert (Hpre : String.prefix p1 p2 = false).
    { destruct (String.prefix p1 p2) eqn:E; [|reflexivity].
      destruct (path_to_prefix _ _ _ Hp1 _ _ Hp2 E) as [_ ->]. congruence. }
    split; [|exact Hpre].
    intros ->. rewrite string_prefix_refl in Hpre. discriminate.
Qed.

Lemma get_codes_any_symbols_witness :
  exists codes,
    get_codes (Internal (Leaf 5) (Internal (Leaf 5) (Leaf 6))) = Ok codes /\
    (forall s, is_Some (codes !! Some s) <->
       s ∈ leaf_symbols (Internal (Leaf 5) (Internal (Leaf 5) (Leaf 6)))) /\
    (forall s p, codes !! Some s = Some p ->
       path_to (Internal (Leaf 5) (Internal (Leaf 5) (Leaf 6))) p s) /\
    codes !! None = None /\
    prefix_free codes.
Proof.
  apply (get_codes_any_symbols
           (Internal (Leaf 5) (Internal (Leaf 5) (Leaf 6)))).
  - repeat constructor.
  - reflexivity.
Defined.

Lemma HuffmanNode_induction (P : HuffmanNode -> Prop) :
  (forall s l r k,
     (forall c, l = Some c -> P c) -> (forall c, r = Some c -> P c) ->
     P (MkNode s l r k)) ->
  forall t, P t.
Proof.
  intros step t. remember (node_count t) as n eqn:En. revert t En.
  induction n as [n IH] using lt_wf_ind. intros [s l r k] ->.
  apply step; intros c ->; (eapply IH; [|reflexivity]); cbn [node_count]; lia.
Qed.

Lemma is_leaf_full_binary t : is_leaf t = true -> full_binary t = true.
Proof. destruct t as [s [l|] [r|] k]; cbn; congruence. Qed.

Lemma get_codes_full_binary t :
  if full_binary t then exists codes, get_codes t = Ok codes
  else get_codes t = Raise AttributeError.
Proof.
  induction t as [s l r k IHl IHr] using HuffmanNode_induction.
  destruct l as [ln|], r as [rn|];
    cbn [full_binary get_codes is_leaf left right];
    try (eexists; reflexivity); try reflexivity.
  - specialize (IHl ln eq_refl). specialize (IHr rn eq_refl).
    unfold mbind, result_bind, bind.
    destruct (is_leaf ln) eqn:El.
    + rewrite (is_leaf_full_binary ln El). cbn [andb].
      destruct (is_leaf rn) eqn:Er.
      * rewrite (is_leaf_full_binary rn Er). eexists. reflexivity.
      * destruct (full_binary rn).
        -- destruct IHr as [c ->]. eexists. reflexivity.
        -- rewrite IHr. reflexivity.
    + destruct (full_binary ln).
      * destruct IHl as [c ->]. cbn [andb].
        destruct (is_leaf rn) eqn:Er.
        -- rewrite (is_leaf_full_binary rn Er). eexists. reflexivity.
        -- destruct (full_binary rn).
           ++ destruct IHr as [c' ->]. eexists. reflexivity.
           ++ rewrite IHr. reflexivity.
      * rewrite IHl. reflexivity.
  - specialize (IHl ln eq_refl). unfold mbind, result_bind, bind.
    destruct (is_leaf ln); [reflexivity|].
    destruct (full_binary ln); [destruct IHl as [c ->]|rewrite IHl];
      reflexivity.
Qed.

(** X14. [get_codes] returns a table exactly on the trees in which every
    node has two children or none; on every other tree it raises
    [AttributeError] (a method called on a missing child), and it raises
    nothing else. *)
Theorem get_codes_fails_iff (tree : HuffmanNode) :
  (full_binary tree = true <-> exists codes, get_codes tree = Ok codes) /\
  (full_binary tree = false <-> get_codes tree = Raise AttributeError) /\
  (forall e, get_codes tree = Raise e -> e = AttributeError).
Proof.
  pose proof (get_codes_full_binary tree) as H.
  destruct (full_binary tree).
  - destruct H as [codes H]. rewrite H. repeat split; eauto; discriminate.
  - rewrite H. repeat split; try discriminate; try congruence.
    intros [c Hc]. discriminate.
Qed.

(** ** The numbering *)

Lemma assign_number_replace : forall path t node x,
  subtree_at t path = Some node ->
  assign_number t path x = replace_at t path (set_number node (Some x)).
Proof.
  induction path as [|b p IH]; intros [s l r k] node x H.
  - injection H as <-. reflexivity.
  - destruct b; cbn [subtree_at] in H; cbn [assign_number replace_at].
    + destruct r as [c|]; [|discriminate]. cbn [option_map].
      rewrite (IH c node x H). reflexivity.
    + destruct l as [c|]; [|discriminate]. cbn [option_map].
      rewrite (IH c node x H). reflexivity.
Qed.

Lemma subtree_at_app : forall p q t,
  subtree_at t (p ++ q) =
  match subtree_at t p with Some n => subtree_at n q | None => None end.
Proof.
  induction p as [|b p IH]; intros q [s l r k]; [reflexivity|].
  destruct b; cbn [app subtree_at].
  - destruct r; [apply IH|reflexivity].
  - destruct l; [apply IH|reflexivity].
Qed.

Lemma subtree_at_replace : forall p t node new,
  subtree_at t p = Some node -> subtree_at (replace_at t p new) p = Some new.
Proof.
  induction p as [|b p IH]; intros [s l r k] node new H; [reflexivity|].
  destruct b; cbn [subtree_at replace_at] in *.
  - destruct r as [c|]; [|discriminate]. cbn [option_map]. eapply IH, H.
  - destruct l as [c|]; [|discriminate]. cbn [option_map]. eapply IH, H.
Qed.

Lemma replace_at_app : forall p q t node new,
  subtree_at t p = Some node ->
  replace_at t (p ++ q) new = replace_at t p (replace_at node q new).
Proof.
  induction p as [|b p IH]; intros q [s l r k] node new H.
  - injection H as <-. reflexivity.
  - destruct b; cbn [subtree_at app replace_at] in *.
    + destruct r as [c|]; [|discriminate]. cbn [option_map].
      rewrite (IH q c node new H). reflexivity.
    + destruct l as [c|]; [|discriminate]. cbn [option_map].
      rewrite (IH q c node new H). reflexivity.
Qed.

Lemma replace_at_twice : forall p t a b,
  replace_at (replace_at t p a) p b = replace_at t p b.
Proof.
  induction p as [|d p IH]; intros [s l r k] a b; [reflexivity|].
  destruct d; cbn [replace_at].
  - destruct r; cbn [option_map]; [rewrite IH|]; reflexivity.
  - destruct l; cbn [option_map]; [rewrite IH|]; reflexivity.
Qed.

Lemma set_number_twice t a b :
  set_number (set_number t a) b = set_number t b.
Proof. destruct t. reflexivity. Qed.

Lemma subtree_at_set_number t k p :
  p <> [] -> subtree_at (set_number t k) p = subtree_at t p.
Proof. destruct p as [|[|] p], t; [congruence|reflexivity..]. Qed.

Lemma replace_at_set_number t k p new :
  p <> [] ->
  replace_at (set_number t k) p new = set_number (replace_at t p new) k.
Proof. destruct p as [|[|] p], t; [congruence|reflexivity..]. Qed.

(** What a call of [traverse_node] does to the store: the subtree it
    visits is relabelled, and the root ends with [max + 2]. *)
Lemma traverse_node_spec node : forall path x max tree,
  subtree_at tree path = Some node ->
  traverse_node node path x max tree =
  set_number (replace_at tree path (label_from x node)) (Some (max + 1 + 1)).
Proof.
  induction node as [s l r k IHl IHr] using HuffmanNode_induction.
  intros path x max tree Hsub. cbn [traverse_node].
  rewrite (assign_number_replace path tree _ x Hsub).
  cbn [set_number symbol left right number label_from].
  assert (Hl : path ++ [false] <> []) by (destruct path; discriminate).
  assert (Hr : path ++ [true] <> []) by (destruct path; discriminate).
  destruct l as [ln|].
  - rewrite (IHl ln eq_refl (path ++ [false]) x max)
      by (rewrite subtree_at_app, (subtree_at_replace _ _ _ _ Hsub);
          reflexivity).
    rewrite (replace_at_app path [false] _ (MkNode s (Some ln) r (Some x)))
      by (eapply subtree_at_replace, Hsub).
    rewrite replace_at_twice. cbn [replace_at option_map].
    destruct r as [rn|].
    + rewrite (IHr rn eq_refl (path ++ [true]) (x + 1) max)
        by (rewrite (subtree_at_set_number _ _ _ Hr), subtree_at_app,
              (subtree_at_replace _ _ _ _ Hsub); reflexivity).
      rewrite set_number_twice, (replace_at_set_number _ _ _ _ Hr),
        set_number_twice.
      rewrite (replace_at_app path [true] _
                 (MkNode s (Some (label_from x ln)) (Some rn) (Some x)))
        by (eapply subtree_at_replace, Hsub).
      rewrite replace_at_twice. reflexivity.
    + rewrite set_number_twice. reflexivity.
  - destruct r as [rn|]; [|reflexivity].
    rewrite (IHr rn eq_refl (path ++ [true]) (x + 1) max)
      by (rewrite subtree_at_app, (subtree_at_replace _ _ _ _ Hsub);
          reflexivity).
    rewrite set_number_twice.
    rewrite (replace_at_app path [true] _ (MkNode s None (Some rn) (Some x)))
      by (eapply subtree_at_replace, Hsub).
    rewrite replace_at_twice. reflexivity.
Qed.

(** X15. On every tree, [number_nodes] gives every node below the root,
    leaves included, the number of right turns on the way from the root to
    it, and gives the root the number 2. *)
Theorem number_nodes_labels (tree : HuffmanNode) :
  number_nodes tree = set_number (label_from 0 tree) (Some 2).
Proof.
  unfold number_nodes. rewrite (traverse_node_spec tree [] 0 0 tree eq_refl).
  reflexivity.
Qed.

Lemma erase_numbers_get_codes a : forall b,
  erase_numbers a = erase_numbers b -> get_codes a = get_codes b.
Proof.
  induction a as [s l r k IHl IHr] using HuffmanNode_induction.
  intros [s' l' r' k'] E. cbn [erase_numbers] in E.
  injection E as -> El Er.
  assert (Hleaf : forall (c c' : HuffmanNode),
            erase_numbers c = erase_numbers c' ->
            is_leaf c = is_leaf c' /\ symbol c = symbol c').
  { intros [? [?|] [?|] ?] [? [?|] [?|] ?] E; cbn in E; try discriminate;
      injection E as ->; auto. }
  destruct l as [ln|], l' as [ln'|]; try discriminate;
    destruct r as [rn|], r' as [rn'|]; try discriminate;
    cbn [get_codes is_leaf left right]; try reflexivity.
  - injection El as El. injection Er as Er.
    destruct (Hleaf _ _ El) as [-> ->]. destruct (Hleaf _ _ Er) as [-> ->].
    rewrite (IHl ln eq_refl ln' El), (IHr rn eq_refl rn' Er). reflexivity.
  - injection El as El.
    destruct (Hleaf _ _ El) as [-> ->].
    rewrite (IHl ln eq_refl ln' El). reflexivity.
Qed.

Lemma erase_numbers_label_from t : forall x,
  erase_numbers (label_from x t) = erase_numbers t.
Proof.
  induction t as [s l r k IHl IHr] using HuffmanNode_induction.
  intros x. cbn [label_from erase_numbers].
  destruct l as [ln|], r as [rn|];
    rewrite ?(IHl _ eq_refl), ?(IHr _ eq_refl); reflexivity.
Qed.

Lemma erase_numbers_set_number t k :
  erase_numbers (set_number t k) = erase_numbers t.
Proof. destruct t. reflexivity. Qed.

(** X16. [number_nodes] changes nothing but numbers: the tree keeps its
    shape and its symbols, and [get_codes] gives the same result after the
    call as before. *)
Theorem number_nodes_keeps_codes (tree : HuffmanNode) :
  erase_numbers (number_nodes tree) = erase_numbers tree /\
  get_codes (number_nodes tree) = get_codes tree.
Proof.
  assert (E : erase_numbers (number_nodes tree) = erase_numbers tree).
  { unfold number_nodes.
    rewrite (traverse_node_spec tree [] 0 0 tree eq_refl).
    cbn [replace_at].
    rewrite erase_numbers_set_number. apply erase_numbers_label_from. }
  split; [exact E|]. apply erase_numbers_get_codes, E.
Qed.

(** ** The bit packer *)

Lemma length_str_take n : forall s,
  String.length (str_take n s) = Nat.min n (String.length s).
Proof.
  induction n as [|n IH]; intros [|c s]; cbn; try reflexivity.
  rewrite IH. reflexivity.
Qed.

Lemma length_str_drop n : forall s,
  String.length (str_drop n s) = (String.length s - n)%nat.
Proof.
  induction n as [|n IH]; intros [|c s]; cbn; try reflexivity. apply IH.
Qed.

Lemma str_take_all n : forall s,
  (String.length s <= n)%nat -> str_take n s = s.
Proof.
  induction n as [|n IH]; intros [|c s] H; cbn in *; try reflexivity; [lia|].
  rewrite IH by lia. reflexivity.
Qed.

Lemma string_length_zero s : String.length s = O -> s = EmptyString.
Proof. destruct s; [reflexivity|discriminate]. Qed.

Lemma pack_step_Ok lst byte i b :
  bits_to_byte (str_take (8 * i) byte) = Ok b ->
  pack_step (lst, byte) i = Ok (lst ++ [b], str_drop (8 * i) byte).
Proof. intros H. unfold pack_step. rewrite H. reflexivity. Qed.

Lemma pack_step_Raise lst byte i e :
  bits_to_byte (str_take (8 * i) byte) = Raise e ->
  pack_step (lst, byte) i = Raise e.
Proof. intros H. unfold pack_step. rewrite H. reflexivity. Qed.

(** Once the string is used up, every further round appends a zero
    byte. *)
Lemma pack_loop_empty l : forall lst,
  for_each pack_step l (lst, EmptyString)
  = Ok (lst ++ replicate (length l) 0, EmptyString).
Proof.
  induction l as [|i l IH]; intros lst; cbn [length replicate].
  - rewrite app_nil_r. reflexivity.
  - rewrite (for_each_Ok _ _ _ _ (lst ++ [0], EmptyString)).
    + rewrite IH, <- app_assoc. reflexivity.
    + replace EmptyString with (str_drop (8 * i) EmptyString) at 2
        by (destruct (8 * i)%nat; reflexivity).
      apply pack_step_Ok. destruct (8 * i)%nat; reflexivity.
Qed.

Lemma pack_loop_raises l : forall st e,
  for_each pack_step l st = Raise e -> e = ValueError.
Proof.
  induction l as [|i l IH]; intros [lst byte] e; cbn [for_each];
    [discriminate|].
  unfold pack_step at 1.
  destruct (bits_to_byte (str_take (8 * i) byte)) as [b|e'] eqn:E.
  - cbn [mbind result_bind bind]. apply IH.
  - cbn [mbind result_bind bind]. intros H. injection H as <-.
    eapply bits_to_byte_raises, E.
Qed.

(** From eight bits on, the loop runs [len % 8 + 1] times. *)
Lemma generate_compressed_long text codes bits :
  code_bits text codes = Ok bits -> (8 <= String.length bits)%nat ->
  generate_compressed text codes =
  '(lst, _) ←
    for_each pack_step (seq 1 (S (String.length bits mod 8))) ([], bits);
  Ok lst.
Proof.
  intros Hbits Hlen. unfold generate_compressed.
  unfold code_bits in Hbits. rewrite Hbits.
  unfold mbind at 1, result_bind at 1, bind at 1.
  destruct (Z.ltb_spec (Z.of_nat (String.length bits)) 8) as [?|_]; [lia|].
  replace (Z.to_nat (Z.of_nat (String.length bits) mod 8 + 2) - 1)%nat
    with (S (String.length bits mod 8)); [reflexivity|].
  change 8 with (Z.of_nat 8). rewrite <- Nat2Z.inj_mod.
  lia.
Qed.

Lemma pack_multiple_of_8 text codes bits :
  code_bits text codes = Ok bits ->
  (8 <= String.length bits)%nat -> (String.length bits mod 8 = 0)%nat ->
  generate_compressed text codes =
  b ← bits_to_byte (str_take 8 bits); Ok [b].
Proof.
  intros Hbits Hlen Hmod.
  rewrite (generate_compressed_long text codes bits Hbits) by lia.
  rewrite Hmod. cbn [seq].
  destruct (bits_to_byte (str_take 8 bits)) as [b|e] eqn:E.
  - rewrite (for_each_Ok _ _ _ _ _ (pack_step_Ok [] bits 1 b E)).
    reflexivity.
  - rewrite (for_each_Raise _ _ _ _ e); [reflexivity|].
    apply pack_step_Raise, E.
Qed.

Lemma pack_nine_to_fifteen text codes bits :
  code_bits text codes = Ok bits ->
  (9 <= String.length bits <= 15)%nat ->
  generate_compressed text codes =
  b1 ← bits_to_byte (str_take 8 bits);
  b2 ← bits_to_byte (str_drop 8 bits);
  Ok ([b1; b2] ++ replicate (String.length bits - 9) 0).
Proof.
  intros Hbits Hlen.
  rewrite (generate_compressed_long text codes bits Hbits) by lia.
  assert (Hmod : (String.length bits mod 8 = String.length bits - 8)%nat).
  { replace (String.length bits) with (String.length bits - 8 + 1 * 8)%nat
      at 1 by lia.
    rewrite Nat.Div0.mod_add. apply Nat.mod_small. lia. }
  rewrite Hmod.
  destruct (String.length bits - 8)%nat as [|m] eqn:Em; [lia|].
  cbn [seq].
  destruct (bits_to_byte (str_take 8 bits)) as [b1|e] eqn:E1.
  2:{ rewrite (for_each_Raise _ _ _ _ e); [reflexivity|].
      apply pack_step_Raise, E1. }
  rewrite (for_each_Ok _ _ _ _ _ (pack_step_Ok [] bits 1 b1 E1)).
  change (8 * 1)%nat with 8%nat.
  assert (Etake : str_take (8 * 2) (str_drop 8 bits) = str_drop 8 bits)
    by (apply str_take_all; rewrite length_str_drop; lia).
  destruct (bits_to_byte (str_drop 8 bits)) as [b2|e] eqn:E2.
  2:{ rewrite (for_each_Raise _ _ _ _ e); [reflexivity|].
      apply pack_step_Raise. rewrite Etake. exact E2. }
  rewrite <- Etake in E2.
  rewrite (for_each_Ok _ _ _ _ _ (pack_step_Ok _ _ 2 b2 E2)).
  rewrite (string_length_zero (str_drop (8 * 2) (str_drop 8 bits)))
    by (rewrite !length_str_drop; lia).
  rewrite pack_loop_empty, length_seq.
  replace (String.length bits - 9)%nat with m by lia. reflexivity.
Qed.

Lemma groups_of_8_one fuel bits :
  (String.length bits <= 8)%nat -> groups_of_8 (S fuel) bits = [bits].
Proof.
  intros H. cbn [groups_of_8].
  destruct (Nat.leb_spec (String.length bits) 8); [reflexivity|lia].
Qed.

Lemma groups_of_8_more fuel bits :
  (8 < String.length bits)%nat ->
  groups_of_8 (S fuel) bits =
  str_take 8 bits :: groups_of_8 fuel (str_drop 8 bits).
Proof.
  intros H. cbn [groups_of_8].
  destruct (Nat.leb_spec (String.length bits) 8); [lia|reflexivity].
Qed.

(** X17. When the codes of the text make between one and nine bits,
    [generate_compressed] returns the documented packing: the bits cut
    into groups of eight from the left, the last group padded with zeros
    on the right. *)
Theorem generate_compressed_short text codes bits :
  code_bits text codes = Ok bits ->
  (1 <= String.length bits <= 9)%nat ->
  generate_compressed text codes = packed_reference text codes.
Proof.
  intros Hbits Hlen.
  assert (Href : packed_reference text codes =
    for_each (fun out group => b ← bits_to_byte group; Ok (out ++ [b]))
             (groups_of_8 (String.length bits) bits) []).
  { unfold packed_reference. unfold code_bits in Hbits. rewrite Hbits.
    reflexivity. }
  rewrite Href.
  destruct (Nat.lt_trichotomy (String.length bits) 8) as [Hlt|[Heq|Hgt]].
  - unfold generate_compressed. unfold code_bits in Hbits. rewrite Hbits.
    cbn [mbind result_bind bind].
    destruct (Z.ltb_spec (Z.of_nat (String.length bits)) 8) as [_|?]; [|lia].
    destruct (String.length bits) as [|n] eqn:En; [lia|].
    rewrite groups_of_8_one by lia. cbn [for_each].
    destruct (bits_to_byte bits); reflexivity.
  - rewrite (pack_multiple_of_8 text codes bits Hbits)
      by (rewrite ?Heq; try reflexivity; lia).
    rewrite Heq, groups_of_8_one by lia. cbn [for_each].
    rewrite str_take_all by lia.
    destruct (bits_to_byte bits); reflexivity.
  - assert (E9 : String.length bits = 9%nat) by lia.
    rewrite (pack_nine_to_fifteen text codes bits Hbits) by lia.
    rewrite E9, groups_of_8_more by lia.
    rewrite groups_of_8_one by (rewrite length_str_drop; lia).
    cbn [for_each Nat.sub replicate].
    destruct (bits_to_byte (str_take 8 bits)); [|reflexivity].
    destruct (bits_to_byte (str_drop 8 bits)); reflexivity.
Qed.

Lemma generate_compressed_short_witness :
  generate_compressed [1; 2; 1; 0; 2] codes_012 =
  packed_reference [1; 2; 1; 0; 2] codes_012.
Proof.
  apply (generate_compressed_short _ _ "101110011").
  - vm_compute. reflexivity.
  - simpl. lia.
Defined.

(** X18. When the number of bits is a multiple of eight and not zero,
    [generate_compressed] returns one byte only, made of the first eight
    bits: every bit after the eighth is lost. *)
Theorem generate_compressed_multiple_of_8 text codes bits :
  code_bits text codes = Ok bits ->
  (8 <= String.length bits)%nat -> (String.length bits mod 8 = 0)%nat ->
  generate_compressed text codes =
  b ← bits_to_byte (str_take 8 bits); Ok [b].
Proof. exact (pack_multiple_of_8 text codes bits). Qed.

Lemma generate_compressed_multiple_of_8_witness :
  generate_compressed (replicate 8 0 ++ replicate 8 1) codes_01 =
  b ← bits_to_byte (str_take 8 "0000000011111111"); Ok [b].
Proof.
  apply (generate_compressed_multiple_of_8 _ _ "0000000011111111").
  - vm_compute. reflexivity.
  - simpl. lia.
  - reflexivity.
Defined.

(** X19. When the codes of the text make between nine and fifteen bits,
    [generate_compressed] returns the two bytes of the bits followed by
    [len - 9] zero bytes that the documented packing does not have. *)
Theorem generate_compressed_nine_to_fifteen text codes bits :
  code_bits text codes = Ok bits ->
  (9 <= String.length bits <= 15)%nat ->
  generate_compressed text codes =
  b1 ← bits_to_byte (str_take 8 bits);
  b2 ← bits_to_byte (str_drop 8 bits);
  Ok ([b1; b2] ++ replicate (String.length bits - 9) 0).
Proof. exact (pack_nine_to_fifteen text codes bits). Qed.

Lemma generate_compressed_nine_to_fifteen_witness :
  generate_compressed (replicate 8 0 ++ replicate 2 1) codes_01 =
  b1 ← bits_to_byte (str_take 8 "0000000011");
  b2 ← bits_to_byte (str_drop 8 "0000000011");
  Ok ([b1; b2] ++ replicate (String.length "0000000011" - 9) 0).
Proof.
  apply (generate_compressed_nine_to_fifteen _ _ "0000000011").
  - vm_compute. reflexivity.
  - simpl. lia.
Defined.

(** X20. When the codes of the text make more than sixteen bits and their
    number is not a multiple of eight, [generate_compressed] raises
    ValueError: its second round hands more than eight bits to
    [bits_to_byte]. *)
Theorem generate_compressed_overflow text codes bits :
  code_bits text codes = Ok bits ->
  (16 < String.length bits)%nat -> (String.length bits mod 8 <> 0)%nat ->
  generate_compressed text codes = Raise ValueError.
Proof.
  intros Hbits Hlen Hmod.
  rewrite (generate_compressed_long text codes bits Hbits) by lia.
  destruct (String.length bits mod 8)%nat as [|m] eqn:Em; [congruence|].
  cbn [seq].
  destruct (bits_to_byte (str_take (8 * 1) bits)) as [b1|e] eqn:E1.
  - rewrite (for_each_Ok _ _ _ _ _ (pack_step_Ok [] bits 1 b1 E1)).
    rewrite (for_each_Raise _ _ _ _ ValueError); [reflexivity|].
    apply pack_step_Raise, bits_to_byte_too_long.
    rewrite length_str_take, length_str_drop. lia.
  - apply bits_to_byte_raises in E1 as E. subst e.
    rewrite (for_each_Raise _ _ _ _ ValueError); [reflexivity|].
    apply pack_step_Raise, E1.
Qed.

Lemma generate_compressed_overflow_witness :
  generate_compressed (replicate 17 0) codes_01 = Raise ValueError.
Proof.
  apply (generate_compressed_overflow _ _ "00000000000000000").
  - vm_compute. reflexivity.
  - simpl. lia.
  - simpl. lia.
Defined.

Lemma code_bits_missing (text : list Z) (codes : gmap (option Z) string) :
  forall acc,
  (exists i, i ∈ text /\ codes !! Some i = None) ->
  for_each (fun byte i =>
              match codes !! Some i with
              | Some c => Ok (byte +:+ c)
              | None => Raise KeyError
              end) text acc = Raise KeyError.
Proof.
  induction text as [|x text IH]; intros acc (i & Hi & Hnone).
  - inversion Hi.
  - cbn [for_each]. destruct (codes !! Some x) as [c|] eqn:Ex; [|reflexivity].
    unfold bind. apply IH. exists i. split; [|exact Hnone].
    inversion Hi; subst; [congruence|assumption].
Qed.

Lemma code_bits_present (text : list Z) (codes : gmap (option Z) string) :
  forall acc,
  (forall i, i ∈ text -> is_Some (codes !! Some i)) ->
  exists bits,
    for_each (fun byte i =>
                match codes !! Some i with
                | Some c => Ok (byte +:+ c)
                | None => Raise KeyError
                end) text acc = Ok bits.
Proof.
  induction text as [|x text IH]; intros acc Hall.
  - eexists. reflexivity.
  - cbn [for_each]. destruct (Hall x) as [c ->]; [left|].
    unfold bind. apply IH. intros i Hi. apply Hall. right. exact Hi.
Qed.

(** X21. [generate_compressed] raises KeyError exactly when some byte of
    the text has no code in the table; no other path of the function
    raises this error. *)
Theorem generate_compressed_missing_code
    (text : list Z) (codes : gmap (option Z) string) :
  (generate_compressed text codes = Raise KeyError <->
   exists i, i ∈ text /\ codes !! Some i = None).
Proof.
  split.
  - intros Hgen.
    destruct (decide (Forall (fun i => is_Some (codes !! Some i)) text))
      as [Hall|Hnot].
    + exfalso. rewrite Forall_forall in Hall.
      destruct (code_bits_present text codes EmptyString Hall) as [bits Hb].
      unfold generate_compressed in Hgen. rewrite Hb in Hgen.
      unfold mbind at 1, result_bind at 1, bind at 1 in Hgen.
      destruct (_ <? _).
      * destruct (bits_to_byte bits) as [b|e] eqn:E; [discriminate|].
        apply bits_to_byte_raises in E. subst e. discriminate.
      * match type of Hgen with
        | (?m ≫= _) = _ => destruct m as [[lst rest]|e] eqn:E
        end; [discriminate|].
        cbn [mbind result_bind bind] in Hgen. injection Hgen as ->.
        apply pack_loop_raises in E. discriminate.
    + apply not_Forall_Exists in Hnot; [|exact _].
      apply Exists_exists in Hnot as (i & Hi & Hn).
      exists i. split; [exact Hi|].
      unfold compose in Hn.
      destruct (codes !! Some i) as [c|];
        [exfalso; apply Hn; exists c; reflexivity|reflexivity].
  - intros H. unfold generate_compressed.
    rewrite (code_bits_missing text codes EmptyString H). reflexivity.
Qed.

(** ** A text of one symbol *)

Lemma huffman_tree_one_key (s c : Z) : huffman_tree [(s, c)] = Ok (Leaf s).
Proof.
  unfold huffman_tree, find_biggest_key. cbn -[Z.eqb Z.gtb].
  rewrite Z.eqb_refl. cbn -[Z.eqb Z.gtb].
  destruct (c >? c); rewrite Z.eqb_refl; reflexivity.
Qed.

Lemma make_freq_dict_repeat (s : Z) (n : nat) : forall c,
  for_each
    (fun dic char =>
       if negb (dict_contains dic char) then Ok (dict_set dic char 1)
       else c ← dict_get dic char; Ok (dict_set dic char (c + 1)))
    (replicate n s) [(s, c)] = Ok [(s, c + Z.of_nat n)].
Proof.
  induction n as [|n IH]; intros c; cbn [replicate for_each].
  - rewrite Z.add_0_r. reflexivity.
  - unfold dict_contains. cbn [dict_get dict_set]. rewrite Z.eqb_refl.
    cbn [negb mbind result_bind bind]. rewrite IH. f_equal. f_equal. f_equal.
    lia.
Qed.

(** X22. A text that repeats one byte cannot be compressed. Its frequency
    table has one entry, [huffman_tree] returns a single leaf for it,
    [get_codes] returns the empty table for that leaf, and then both
    [avg_length] and [generate_compressed] raise KeyError, so the whole
    pipeline does. *)
Theorem single_byte_text_fails (s : Z) (n : nat) :
  make_freq_dict (replicate (S n) s) = Ok [(s, Z.of_nat (S n))] /\
  huffman_tree [(s, Z.of_nat (S n))] = Ok (Leaf s) /\
  get_codes (Leaf s) = Ok ∅ /\
  avg_length (Leaf s) [(s, Z.of_nat (S n))] = Raise KeyError /\
  generate_compressed (replicate (S n) s) ∅ = Raise KeyError /\
  codec_round_trip (replicate (S n) s) = Raise KeyError.
Proof.
  assert (Hf : make_freq_dict (replicate (S n) s) = Ok [(s, Z.of_nat (S n))]).
  { unfold make_freq_dict. cbn [replicate for_each dict_contains dict_get negb
                                dict_set bind].
    rewrite make_freq_dict_repeat. f_equal. f_equal. f_equal. lia. }
  assert (Hg : generate_compressed (replicate (S n) s) ∅ = Raise KeyError).
  { unfold generate_compressed.
    rewrite (code_bits_missing (replicate (S n) s) ∅ EmptyString);
      [reflexivity|].
    exists s. split; [left|]. apply lookup_empty. }
  split; [exact Hf|]. split; [apply huffman_tree_one_key|].
  split; [reflexivity|]. split; [reflexivity|]. split; [exact Hg|].
  unfold codec_round_trip. rewrite Hf. cbn [mbind result_bind bind].
  rewrite huffman_tree_one_key. cbn [mbind result_bind bind get_codes is_leaf
                                     Leaf new_node left right].
  rewrite Hg. reflexivity.
Qed.

(** ** The serialised tree *)

Lemma traverse_tree_app t : forall lst,
  traverse_tree t lst = lst ++ traverse_tree t [].
Proof.
  induction t as [s l r k IHl IHr] using HuffmanNode_induction.
  intros lst. cbn [traverse_tree].
  assert (Hl : forall acc,
    match l with
    | Some ln => if is_leaf ln then acc ++ [Some 0; symbol ln]
                 else traverse_tree ln acc
    | None => acc
    end = acc ++ match l with
                 | Some ln => if is_leaf ln then [Some 0; symbol ln]
                              else traverse_tree ln []
                 | None => []
                 end).
  { intros acc. destruct l as [ln|]; [|rewrite app_nil_r; reflexivity].
    destruct (is_leaf ln); [reflexivity|apply (IHl ln eq_refl)]. }
  assert (Hr : forall acc,
    match r with
    | Some rn => if is_leaf rn then acc ++ [Some 0; symbol rn]
                 else traverse_tree rn acc
    | None => acc
    end = acc ++ match r with
                 | Some rn => if is_leaf rn then [Some 0; symbol rn]
                              else traverse_tree rn []
                 | None => []
                 end).
  { intros acc. destruct r as [rn|]; [|rewrite app_nil_r; reflexivity].
    destruct (is_leaf rn); [reflexivity|apply (IHr rn eq_refl)]. }
  rewrite (Hl lst), (Hl []), Hr. rewrite (Hr (_ ++ _)). cbn [app].
  destruct (negb _); rewrite <- ?app_assoc; reflexivity.
Qed.

Lemma traverse_tree_internal sym l r k :
  traverse_tree (MkNode sym (Some l) (Some r) k) [] =
  (if is_leaf l then [Some 0; symbol l] else traverse_tree l []) ++
  (if is_leaf r then [Some 0; symbol r] else traverse_tree r []) ++
  [Some 1; k].
Proof.
  cbn [traverse_tree is_leaf left right negb].
  destruct (is_leaf l), (is_leaf r); cbn [app];
    rewrite ?(traverse_tree_app r (_ :: _)),
      ?(traverse_tree_app r (traverse_tree l []));
    rewrite <- ?app_assoc; reflexivity.
Qed.

Lemma traverse_tree_length t : well_formed t -> is_leaf t = false ->
  length (traverse_tree t []) = (4 * length (internal_numbers t) + 2)%nat.
Proof.
  induction 1 as [s k|sym l r k Hl IHl Hr IHr]; [discriminate|]. intros _.
  rewrite traverse_tree_internal. cbn [internal_numbers].
  rewrite !length_app. cbn [length].
  assert (Hc : forall c, well_formed c ->
    (is_leaf c = false ->
       length (traverse_tree c []) =
       (4 * length (internal_numbers c) + 2)%nat) ->
    length (if is_leaf c then [Some 0; symbol c] else traverse_tree c [])
    = (4 * length (internal_numbers c) + 2)%nat).
  { intros c Hc IH. destruct (is_leaf c) eqn:E; [|apply IH; reflexivity].
    destruct Hc; [reflexivity|discriminate]. }
  rewrite (Hc l Hl IHl), (Hc r Hr IHr). lia.
Qed.

Lemma bytes_of_length l : forall bs,
  bytes_of l = Ok bs -> length bs = length l.
Proof.
  induction l as [|[b|] l IH]; intros bs; cbn [bytes_of]; try discriminate.
  - intros H. injection H as <-. reflexivity.
  - destruct (_ && _); [|discriminate].
    destruct (bytes_of l) as [r|]; [|discriminate].
    intros H. injection H as <-. cbn [length]. rewrite (IH r eq_refl).
    reflexivity.
Qed.

Lemma bytes_to_nodes_length k : forall buf,
  length buf = (4 * k)%nat ->
  exists nodes, bytes_to_nodes buf = Ok nodes /\ length nodes = k.
Proof.
  induction k as [|k IH]; intros buf Hlen.
  - destruct buf; [|discriminate]. exists []. split; reflexivity.
  - destruct buf as [|a [|b [|c [|d rest]]]]; cbn [length] in Hlen; try lia.
    destruct (IH rest ltac:(lia)) as (nodes & Hn & Hk).
    cbn [bytes_to_nodes]. rewrite Hn. eexists. split; [reflexivity|].
    cbn [length]. rewrite Hk. reflexivity.
Qed.

(** X23. When [tree_to_bytes] returns for a tree with an internal root,
    the bytes are four per internal node, and [bytes_to_nodes] reads them
    back as one record per internal node, whatever the numbering is. *)
Theorem tree_to_bytes_parses (tree : HuffmanNode) (buf : list Z) :
  well_formed tree -> is_leaf tree = false ->
  tree_to_bytes tree = Ok buf ->
  length buf = (4 * length (internal_numbers tree))%nat /\
  exists node_lst, bytes_to_nodes buf = Ok node_lst /\
    length node_lst = length (internal_numbers tree).
Proof.
  intros Hwf Hint Hbuf. unfold tree_to_bytes in Hbuf.
  apply bytes_of_length in Hbuf.
  rewrite length_take, (traverse_tree_length tree Hwf Hint) in Hbuf.
  assert (Hlen : length buf = (4 * length (internal_numbers tree))%nat)
    by lia.
  split; [exact Hlen|]. apply bytes_to_nodes_length, Hlen.
Qed.

Lemma tree_to_bytes_parses_witness :
  length [0; 3; 0; 2; 1; 0; 0; 5] =
    (4 * length (internal_numbers left_heavy))%nat /\
  exists node_lst, bytes_to_nodes [0; 3; 0; 2; 1; 0; 0; 5] = Ok node_lst /\
    length node_lst = length (internal_numbers left_heavy).
Proof.
  apply (tree_to_bytes_parses left_heavy [0; 3; 0; 2; 1; 0; 0; 5]).
  - repeat constructor.
  - reflexivity.
  - reflexivity.
Defined.

Lemma traverse_tree_left_comb t :
  well_formed t -> is_leaf t = false -> left_comb t = true ->
  traverse_tree t [] = postorder_records t ++ [Some 1; number t].
Proof.
  induction 1 as [s k|sym l r k Hl IHl Hr IHr]; [discriminate|].
  intros _ Hcomb. cbn [left_comb] in Hcomb.
  apply andb_prop in Hcomb as [Hrleaf Hlcomb].
  rewrite traverse_tree_internal, Hrleaf. cbn [postorder_records number].
  assert (Er : postorder_records r = []).
  { destruct Hr; [reflexivity|discriminate]. }
  rewrite Er. unfold child_record. rewrite Hrleaf. cbn [app].
  destruct (is_leaf l) eqn:El.
  - assert (E : postorder_records l = []).
    { destruct Hl; [reflexivity|discriminate]. }
    rewrite E. reflexivity.
  - rewrite (IHl eq_refl Hlcomb), <- !app_assoc. reflexivity.
Qed.

(** X24. On a tree whose internal nodes all have a leaf as right child,
    [tree_to_bytes] returns the documented postorder records; when the
    root also carries the number of internal nodes minus one, the whole
    serialised tree is the documented one. *)
Theorem tree_to_bytes_left_comb (tree : HuffmanNode) :
  well_formed tree -> is_leaf tree = false -> left_comb tree = true ->
  tree_to_bytes tree = bytes_of (postorder_records tree) /\
  (number tree = Some (Z.of_nat (length (internal_numbers tree)) - 1) ->
   serialized tree = serialized_reference tree).
Proof.
  intros Hwf Hint Hcomb.
  assert (E : tree_to_bytes tree = bytes_of (postorder_records tree)).
  { unfold tree_to_bytes.
    rewrite (traverse_tree_left_comb tree Hwf Hint Hcomb).
    rewrite length_app. cbn [length].
    replace (length (postorder_records tree) + 2 - 2)%nat
      with (length (postorder_records tree)) by lia.
    rewrite take_app_length. reflexivity. }
  split; [exact E|]. intros Hnum.
  unfold serialized, serialized_reference, num_nodes_to_bytes.
  rewrite Hnum, E.
  replace (Z.of_nat (length (internal_numbers tree)) - 1 + 1)
    with (Z.of_nat (length (internal_numbers tree))) by lia.
  cbn [bytes_of]. destruct (_ && _); [|reflexivity].
  cbn [mbind result_bind bind]. destruct (bytes_of (postorder_records tree));
    reflexivity.
Qed.

Lemma tree_to_bytes_left_comb_witness :
  tree_to_bytes left_heavy = bytes_of (postorder_records left_heavy) /\
  (number left_heavy =
     Some (Z.of_nat (length (internal_numbers left_heavy)) - 1) ->
   serialized left_heavy = serialized_reference left_heavy).
Proof.
  apply (tree_to_bytes_left_comb left_heavy).
  - repeat constructor.
  - reflexivity.
  - reflexivity.
Defined.

Lemma nodes_to_bytes_cons rn l :
  nodes_to_bytes (rn :: l) =
  l_type rn :: l_data rn :: r_type rn :: r_data rn :: nodes_to_bytes l.
Proof. reflexivity. Qed.

Lemma nodes_to_bytes_length l :
  length (nodes_to_bytes l) = (length l * 4)%nat.
Proof.
  induction l as [|rn l IH]; [reflexivity|].
  rewrite nodes_to_bytes_cons. cbn [length]. rewrite IH. lia.
Qed.

Lemma bytes_to_nodes_flat node_lst :
  bytes_to_nodes (nodes_to_bytes node_lst) = Ok node_lst.
Proof.
  induction node_lst as [|[a b c d] l IH]; [reflexivity|].
  rewrite nodes_to_bytes_cons.
  cbn [l_type l_data r_type r_data bytes_to_nodes].
  rewrite IH. reflexivity.
Qed.

Lemma bytes_to_nodes_strong n : forall buf, (length buf <= n)%nat ->
  match bytes_to_nodes buf with
  | Ok node_lst => buf = nodes_to_bytes node_lst
  | Raise e => e = IndexError /\ (length buf mod 4 <> 0)%nat
  end.
Proof.
  induction n as [|n IH]; intros buf Hlen.
  - destruct buf; [reflexivity|cbn in Hlen; lia].
  - destruct buf as [|a [|b [|c [|d rest]]]]; cbn [bytes_to_nodes];
      try (split; [reflexivity|cbn; lia]); [reflexivity|].
    specialize (IH rest). cbn [length] in Hlen.
    destruct (bytes_to_nodes rest) as [l|e];
      cbn [mbind result_bind bind].
    + rewrite (IH ltac:(lia)) at 1. reflexivity.
    + destruct (IH ltac:(lia)) as [-> Hmod]. split; [reflexivity|].
      cbn [length].
      replace (S (S (S (S (length rest))))) with (length rest + 1 * 4)%nat
        by lia.
      rewrite Nat.Div0.mod_add. exact Hmod.
Qed.

(** X25. [bytes_to_nodes] is the inverse of writing records four bytes
    each: it returns a list exactly when the buffer is the bytes of that
    list, and it raises, always IndexError, exactly when the length of
    the buffer is not a multiple of four. *)
Theorem bytes_to_nodes_inverse (buf : list Z) :
  (forall node_lst,
     bytes_to_nodes buf = Ok node_lst <-> buf = nodes_to_bytes node_lst) /\
  (bytes_to_nodes buf = Raise IndexError <-> (length buf mod 4 <> 0)%nat) /\
  (forall e, bytes_to_nodes buf = Raise e -> e = IndexError).
Proof.
  pose proof (bytes_to_nodes_strong (length buf) buf (le_n _)) as H.
  split; [|split].
  - intros node_lst. split.
    + intros E. rewrite E in H. exact H.
    + intros ->. apply bytes_to_nodes_flat.
  - split.
    + intros E. rewrite E in H. apply H.
    + intros Hmod. destruct (bytes_to_nodes buf) as [l|e].
      * exfalso. apply Hmod. subst buf.
        rewrite nodes_to_bytes_length. apply Nat.Div0.mod_mul.
      * destruct H as [-> _]. reflexivity.
  - intros e E. rewrite E in H. apply H.
Qed.

(** ** The tree readers *)

Lemma list_index_in_range {A} (l : list A) (i : Z) :
  - Z.of_nat (length l) <= i < Z.of_nat (length l) ->
  exists x, list_index l i = Ok x.
Proof.
  intros H. unfold list_index.
  destruct (Z.ltb_spec i 0).
  - destruct (Z.ltb_spec (Z.of_nat (length l) + i) 0); [lia|].
    destruct (l !! Z.to_nat (Z.of_nat (length l) + i)) eqn:E; [eauto|].
    apply lookup_ge_None in E. lia.
  - destruct (Z.ltb_spec i 0); [lia|].
    destruct (l !! Z.to_nat i) eqn:E; [eauto|].
    apply lookup_ge_None in E. lia.
Qed.

Lemma list_index_out_of_range {A} (l : list A) (i : Z) :
  ¬ (- Z.of_nat (length l) <= i < Z.of_nat (length l)) ->
  list_index l i = Raise IndexError.
Proof.
  intros H. unfold list_index.
  destruct (Z.ltb_spec i 0).
  - destruct (Z.ltb_spec (Z.of_nat (length l) + i) 0); [reflexivity|lia].
  - destruct (Z.ltb_spec i 0); [lia|].
    destruct (l !! Z.to_nat i) eqn:E; [|reflexivity].
    apply lookup_lt_Some in E. lia.
Qed.

(** X26. Whatever the records are, a tree returned by
    [generate_tree_general] or [generate_tree_postorder] has height at
    most two and at most four leaves: both functions look one level below
    the root only. *)
Theorem generate_tree_shallow (node_lst : list ReadNode) (root_index : Z)
    (tree : HuffmanNode) :
  generate_tree_general node_lst root_index = Ok tree \/
  generate_tree_postorder node_lst root_index = Ok tree ->
  (height tree <= 2)%nat /\ (length (leaf_symbols tree) <= 4)%nat.
Proof.
  unfold generate_tree_general, generate_tree_postorder.
  intros [H|H];
    (destruct (length node_lst =? 1)%nat;
     [destruct (list_index node_lst 0) as [rn0|]; [|discriminate];
      injection H as <-; cbn; lia|]);
    (destruct (list_index node_lst root_index) as [rn|]; [|discriminate]);
    cbn [mbind result_bind bind] in H;
    destruct (list_index node_lst 0) as [n0|],
             (list_index node_lst 1) as [n1|];
    destruct (l_type rn =? 1), (l_data rn =? 1), (l_data rn =? 0),
             (r_type rn =? 1), (r_data rn =? 1);
    cbn [mbind result_bind bind] in H; try discriminate;
    injection H as <-; cbn; lia.
Qed.

Lemma generate_tree_shallow_witness :
  (height (Internal (Internal (Leaf 10) (Leaf 12))
                    (Internal (Leaf 5) (Leaf 7))) <= 2)%nat /\
  (length (leaf_symbols (Internal (Internal (Leaf 10) (Leaf 12))
                                  (Internal (Leaf 5) (Leaf 7)))) <= 4)%nat.
Proof.
  apply (generate_tree_shallow
           [MkReadNode 0 5 0 7; MkReadNode 0 10 0 12; MkReadNode 1 1 1 0] 2).
  left. reflexivity.
Defined.

(** X27. On a list that does not have exactly one record, the two tree
    readers return a tree when the root index is a valid Python index of
    the list (negative ones included), and raise IndexError when it is
    not; the empty list always raises. *)
Theorem generate_tree_index_error (node_lst : list ReadNode) (root_index : Z) :
  length node_lst <> 1%nat ->
  let in_range :=
    - Z.of_nat (length node_lst) <= root_index < Z.of_nat (length node_lst) in
  (in_range ->
   (exists t, generate_tree_general node_lst root_index = Ok t) /\
   (exists t, generate_tree_postorder node_lst root_index = Ok t)) /\
  (¬ in_range ->
   generate_tree_general node_lst root_index = Raise IndexError /\
   generate_tree_postorder node_lst root_index = Raise IndexError).
Proof.
  intros Hlen in_range. unfold generate_tree_general, generate_tree_postorder.
  destruct (Nat.eqb_spec (length node_lst) 1) as [?|_]; [congruence|].
  split.
  - intros Hin. unfold in_range in Hin.
    destruct (list_index_in_range node_lst root_index Hin) as [rn ->].
    destruct (list_index_in_range node_lst 0 ltac:(lia)) as [n0 ->].
    destruct (list_index_in_range node_lst 1 ltac:(lia)) as [n1 ->].
    cbn [mbind result_bind bind].
    destruct (l_type rn =? 1), (l_data rn =? 1), (l_data rn =? 0),
             (r_type rn =? 1), (r_data rn =? 1);
      cbn [mbind result_bind bind]; split; eexists; reflexivity.
  - intros Hout.
    rewrite (list_index_out_of_range node_lst root_index Hout).
    split; reflexivity.
Qed.

Lemma generate_tree_index_error_witness :
  let in_range :=
    - Z.of_nat (length ([] : list ReadNode)) <= 0
      < Z.of_nat (length ([] : list ReadNode)) in
  (in_range ->
   (exists t, generate_tree_general [] 0 = Ok t) /\
   (exists t, generate_tree_postorder [] 0 = Ok t)) /\
  (¬ in_range ->
   generate_tree_general [] 0 = Raise IndexError /\
   generate_tree_postorder [] 0 = Raise IndexError).
Proof. apply (generate_tree_index_error [] 0). simpl. lia. Defined.

(** X28. A tree of one internal node over two leaves whose symbols are
    bytes survives the trip through [tree_to_bytes], [bytes_to_nodes] and
    either tree reader: the tree read back has the same codes, whatever
    number the root carries. *)
Theorem one_node_tree_round_trip (a b : Z) (k : option Z) :
  0 <= a < 256 -> 0 <= b < 256 ->
  let tree := MkNode None (Some (Leaf a)) (Some (Leaf b)) k in
  codes_after_round_trip generate_tree_general tree = get_codes tree /\
  codes_after_round_trip generate_tree_postorder tree = get_codes tree.
Proof.
  intros Ha Hb tree. unfold codes_after_round_trip, tree_to_bytes.
  cbn [tree traverse_tree is_leaf left right Leaf new_node symbol negb app
       length Nat.sub take bytes_of].
  destruct (Z.leb_spec 0 a); [|lia]. destruct (Z.ltb_spec a 256); [|lia].
  destruct (Z.leb_spec 0 b); [|lia]. destruct (Z.ltb_spec b 256); [|lia].
  cbn. split; reflexivity.
Qed.

Lemma one_node_tree_round_trip_witness :
  let tree := MkNode None (Some (Leaf 3)) (Some (Leaf 2)) None in
  codes_after_round_trip generate_tree_general tree = get_codes tree /\
  codes_after_round_trip generate_tree_postorder tree = get_codes tree.
Proof. apply (one_node_tree_round_trip 3 2 None); lia. Defined.

(** ** The size field *)

(** X29. A size that fits in 32 bits is written by [size_to_bytes] as four
    bytes, and [bytes_to_size] reads the size back from them. *)
Theorem size_round_trip (size : Z) :
  0 <= size < 2 ^ 32 ->
  exists buf, size_to_bytes size = Ok buf /\ length buf = 4%nat /\
    Forall (fun b => 0 <= b < 256) buf /\ bytes_to_size buf = size.
Proof.
  intros H. unfold size_to_bytes.
  destruct (Z.leb_spec 0 size); [|lia].
  destruct (Z.ltb_spec size (2 ^ 32)); [|lia]. cbn [andb].
  eexists. split; [reflexivity|]. split; [reflexivity|]. split.
  - repeat constructor; apply Z.mod_pos_bound; lia.
  - cbn [bytes_to_size].
    pose proof (Z.div_mod size 256 ltac:(lia)).
    pose proof (Z.div_mod (size / 256) 256 ltac:(lia)).
    pose proof (Z.div_mod (size / 256 / 256) 256 ltac:(lia)).
    rewrite !Z.div_div in * by lia.
    change (256 * 256) with 65536 in *.
    change (65536 * 256) with 16777216 in *.
    assert (size / 16777216 < 256).
    { apply Z.div_lt_upper_bound; lia. }
    assert (0 <= size / 16777216) by (apply Z.div_pos; lia).
    rewrite (Z.mod_small (size / 16777216) 256) by lia.
    lia.
Qed.

Lemma size_round_trip_witness :
  exists buf, size_to_bytes 300 = Ok buf /\ length buf = 4%nat /\
    Forall (fun b => 0 <= b < 256) buf /\ bytes_to_size buf = 300.
Proof. apply (size_round_trip 300). lia. Defined.

(** X30. Four bytes read by [bytes_to_size] and written again by
    [size_to_bytes] give the same four bytes: the write never raises on a
    size that was read from four bytes. *)
Theorem bytes_round_trip (a b c d : Z) :
  0 <= a < 256 -> 0 <= b < 256 -> 0 <= c < 256 -> 0 <= d < 256 ->
  size_to_bytes (bytes_to_size [a; b; c; d]) = Ok [a; b; c; d].
Proof.
  intros Ha Hb Hc Hd. cbn [bytes_to_size]. unfold size_to_bytes.
  set (n := a + 256 * (b + 256 * (c + 256 * (d + 256 * 0)))).
  assert (Hn : n = a + 256 * b + 65536 * c + 16777216 * d) by (unfold n; lia).
  destruct (Z.leb_spec 0 n); [|lia].
  destruct (Z.ltb_spec n (2 ^ 32)); [|lia]. cbn [andb].
  assert (E0 : n mod 256 = a).
  { symmetry.
    apply (Z.mod_unique_pos n 256 (b + 256 * c + 65536 * d) a); lia. }
  assert (E1 : n / 256 = b + 256 * c + 65536 * d).
  { symmetry. apply (Z.div_unique_pos n 256 _ a); lia. }
  assert (E2 : n / 65536 = c + 256 * d).
  { symmetry. apply (Z.div_unique_pos n 65536 _ (a + 256 * b)); lia. }
  assert (E3 : n / 16777216 = d).
  { symmetry.
    apply (Z.div_unique_pos n 16777216 _ (a + 256 * b + 65536 * c)); lia. }
  rewrite E0, E1, E2, E3.
  rewrite (Z.mod_small d 256) by lia.
  replace ((b + 256 * c + 65536 * d) mod 256) with b.
  2:{ apply (Z.mod_unique_pos _ 256 (c + 256 * d) b); lia. }
  replace ((c + 256 * d) mod 256) with c.
  2:{ apply (Z.mod_unique_pos _ 256 d c); lia. }
  reflexivity.
Qed.

Lemma bytes_round_trip_witness :
  size_to_bytes (bytes_to_size [44; 1; 0; 0]) = Ok [44; 1; 0; 0].
Proof. apply (bytes_round_trip 44 1 0 0); lia. Defined.
